(** * Inugami shader wrapper (src/inugami/shader.cpp)

    A shallow embedding of [Inugami::Shader]: construction from a
    [ShaderProgram] (compile, attach, link, clean up, introspect), the
    per-thread bind tracker and the uniform lookup.

    The OpenGL driver is an external collaborator.  It is a parameter of the
    development: a record of answer functions, each of which may depend on
    the whole history of calls made so far.  The code is written in a small
    state-and-exception monad over the log of GL calls and the thread-local
    [boundProgram] slots.  Identifiers and sizes ([GLuint], [GLint],
    [GLsizei]) are integers; the code only compares and forwards them.

    The build without shaders ([INU_NO_SHADERS], lines 219-261), in which
    every operation is a stub, is not part of the development. *)

From Stdlib Require Import ZArith String Ascii List Lia.
From stdpp Require Import base list strings gmap fin_maps.

Local Open Scope Z_scope.

(** ** OpenGL scalar types and the enumerants the file uses *)

Definition GLuint := Z.
Definition GLint := Z.
Definition GLsizei := Z.
Definition GLenum := Z.
Definition GLchar := ascii.

Definition GL_FALSE : GLint := 0.

Inductive ShaderType :=
| GL_VERTEX_SHADER
| GL_TESS_CONTROL_SHADER
| GL_TESS_EVALUATION_SHADER
| GL_GEOMETRY_SHADER
| GL_FRAGMENT_SHADER.

Inductive GLpname :=
| GL_COMPILE_STATUS
| GL_LINK_STATUS
| GL_INFO_LOG_LENGTH
| GL_ACTIVE_UNIFORMS
| GL_ACTIVE_UNIFORM_MAX_LENGTH.

(** A log entry for every entry point of the driver that shader.cpp calls
    ([CreateShader t] records a call of glCreateShader, and so on).
    Arguments that are pointers to output storage are left out; the
    character data a call writes is part of the driver's answer (see
    [Driver]). *)
Inductive GLCall :=
| CreateProgram
| DeleteProgram (program : GLuint)
| CreateShader (shaderType : ShaderType)
| ShaderSource (shader : GLuint) (code : string)
| CompileShader (shader : GLuint)
| GetShaderiv (shader : GLuint) (pname : GLpname)
| GetShaderInfoLog (shader : GLuint) (bufSize : GLsizei)
| AttachShader (program shader : GLuint)
| LinkProgram (program : GLuint)
| GetProgramiv (program : GLuint) (pname : GLpname)
| GetProgramInfoLog (program : GLuint) (bufSize : GLsizei)
| DetachShader (program shader : GLuint)
| DeleteShader (shader : GLuint)
| UseProgram (program : GLuint)
| GetActiveUniform (program : GLuint) (index : GLuint) (bufSize : GLsizei)
| GetUniformLocation (program : GLuint) (name : string).

(** The driver: what each value-returning call answers, given the calls made
    before it (oldest first).  [on_glGet...InfoLog] and the last component of
    [on_glGetActiveUniform] are the characters the driver stores through the
    output pointer, terminator included. *)
Record Driver := {
  on_glCreateProgram : list GLCall -> GLuint;
  on_glCreateShader : list GLCall -> ShaderType -> GLuint;
  on_glGetShaderiv : list GLCall -> GLuint -> GLpname -> GLint;
  on_glGetShaderInfoLog : list GLCall -> GLuint -> GLsizei -> list GLchar;
  on_glGetProgramiv : list GLCall -> GLuint -> GLpname -> GLint;
  on_glGetProgramInfoLog : list GLCall -> GLuint -> GLsizei -> list GLchar;
  on_glGetActiveUniform :
    list GLCall -> GLuint -> GLuint -> GLsizei -> GLint * GLenum * list GLchar;
  on_glGetUniformLocation : list GLCall -> GLuint -> string -> GLint
}.

(** ** Exceptions *)

(** The five [ShaderException] classes of the file; each object carries only
    its message [err]. *)
Inductive ShaderException :=
| ShaderE_CompileError (err : string)
| ShaderE_LinkError (err : string)
| ShaderE_UniformTypeError (err : string)
| ShaderE_UniformBindError (err : string)
| ShaderE_UniformShaderError (err : string).

(** The member [err] of [ShaderException]. *)
Definition err (e : ShaderException) : string :=
  match e with
  | ShaderE_CompileError msg
  | ShaderE_LinkError msg
  | ShaderE_UniformTypeError msg
  | ShaderE_UniformBindError msg
  | ShaderE_UniformShaderError msg => msg
  end.

Definition NUL : GLchar := Ascii.zero.

(** [std::string::c_str] as a callee reading up to the terminator sees it. *)
Fixpoint c_str (s : string) : string :=
  match s with
  | EmptyString => EmptyString
  | String c rest => if decide (c = NUL) then EmptyString else String c (c_str rest)
  end.

(** [ShaderException::what]: [err.c_str()], a pointer the caller reads as a
    C string. *)
Definition what (e : ShaderException) : string := c_str (err e).

(** Everything that can be thrown: the module's own exceptions, and what the
    standard library raises when asked for a negative number of elements.
    The negative count converts to a huge unsigned one: [std::vector] checks
    it against [max_size()] and throws [std::length_error]; [new GLchar[n]],
    whose elements are one byte each, passes it on to the allocation
    function, which throws [std::bad_alloc]. *)
Inductive exn :=
| Shader_exn (e : ShaderException)
| std_length_error
| std_bad_alloc.

Definition LF : string := String (ascii_of_nat 10) EmptyString.

(** [ShaderE_CompileError::ShaderE_CompileError(codeStr, errStr)] *)
Definition mk_CompileError (codeStr errStr : string) : ShaderException :=
  let ss := ("Shader compile error:" ++ LF)%string in
  let ss := (ss ++ errStr)%string in
  let ss :=
    if decide (codeStr <> ""%string)
    then ((ss ++ LF ++ "    -- SHADER CODE --" ++ LF) ++ codeStr)%string
    else ss in
  ShaderE_CompileError ss.

(** [ShaderE_LinkError::ShaderE_LinkError(errStr)] *)
Definition mk_LinkError (errStr : string) : ShaderException :=
  ShaderE_LinkError (("Shader link error:" ++ LF) ++ errStr)%string.

Definition mk_UniformTypeError : ShaderException :=
  ShaderE_UniformTypeError "Shader uniform error: Uniform not of correct type!".

Definition mk_UniformBindError : ShaderException :=
  ShaderE_UniformBindError "Shader uniform error: Shader must be bound!".

Definition mk_UniformShaderError : ShaderException :=
  ShaderE_UniformShaderError "Shader uniform error: Uniform handle is invalid!".

(** ** Character buffers *)

(** A buffer cell is [None] while its value is indeterminate. *)
Definition buffer := list (option GLchar).

(** The driver stores [chars] from the first cell on.  [None]: the store
    runs past the end of the buffer. *)
Definition store (buf : buffer) (chars : list GLchar) : option buffer :=
  if decide (length chars <= length buf)%nat
  then Some ((Some <$> chars) ++ drop (length chars) buf)
  else None.

(** Reading a C string from the first cell on, as the conversion from
    [const GLchar*] to [std::string] does.  [None]: the read leaves the
    buffer or meets an indeterminate value before a terminator. *)
Fixpoint load_cstr (buf : buffer) : option string :=
  match buf with
  | [] => None
  | None :: _ => None
  | Some c :: rest =>
      if decide (c = NUL) then Some EmptyString
      else String c <$> load_cstr rest
  end.

(** ** The world and the monad *)

Definition ThreadId := nat.

(** [gl_calls]: every GL call made so far, oldest first.
    [boundProgram]: the [thread_local] static [Shader::boundProgram], one
    slot per thread. *)
Record World := {
  gl_calls : list GLCall;
  boundProgram : ThreadId -> GLuint
}.

(** [thread_local GLuint Shader::boundProgram = 0;] *)
Definition initial_World : World :=
  {| gl_calls := []; boundProgram := fun _ => 0 |}.

Inductive result (A : Type) :=
| Ok (a : A)
| Throw (e : exn)
| Undefined.
Arguments Ok {A} a.
Arguments Throw {A} e.
Arguments Undefined {A}.

Definition M (A : Type) : Type := World -> result A * World.

Definition ret {A} (a : A) : M A := fun w => (Ok a, w).

Definition bindM {A B} (m : M A) (k : A -> M B) : M B :=
  fun w =>
    match m w with
    | (Ok a, w') => k a w'
    | (Throw e, w') => (Throw e, w')
    | (Undefined, w') => (Undefined, w')
    end.

Definition throw {A} (e : exn) : M A := fun w => (Throw e, w).

Definition undefined {A} : M A := fun w => (Undefined, w).

Declare Scope gl_scope.
Delimit Scope gl_scope with gl.
Notation "x <- m ;; k" := (bindM m (fun x => k))
  (at level 100, m at next level, right associativity) : gl_scope.
Notation "m ;; k" := (bindM m (fun _ => k))
  (at level 100, right associativity) : gl_scope.

Definition log_call (c : GLCall) (w : World) : World :=
  {| gl_calls := gl_calls w ++ [c]; boundProgram := boundProgram w |}.

(** A call that returns nothing. *)
Definition call (c : GLCall) : M unit := fun w => (Ok tt, log_call c w).

(** A call whose answer is the driver's, computed from the history. *)
Definition ask {A} (answer : list GLCall -> A) (c : GLCall) : M A :=
  fun w => (Ok (answer (gl_calls w)), log_call c w).

Definition lift_buffer {A} (o : option A) : M A :=
  match o with
  | Some a => ret a
  | None => undefined
  end.

(** The calls a computation adds to the log. *)
Definition new_calls (w w' : World) : list GLCall :=
  drop (length (gl_calls w)) (gl_calls w').

(** [std::vector<GLchar> log(len)]: [len] value-initialised cells; a
    negative [len] converts to a size beyond [max_size()]. *)
Definition std_vector_GLchar (len : GLsizei) : M buffer :=
  if decide (len < 0) then throw std_length_error
  else ret (replicate (Z.to_nat len) (Some NUL)).

(** [new GLchar[n]]: [n] cells holding indeterminate values; a negative [n]
    converts to a size no allocation can satisfy. *)
Definition new_GLchar (n : GLint) : M buffer :=
  if decide (n < 0) then throw std_bad_alloc
  else ret (replicate (Z.to_nat n) None).

(** ** Data of the module *)

(** [UniformData], as [initUniforms] fills it. *)
Module UniformData.
Record t := mk { size : GLint; type : GLenum; location : GLint }.
End UniformData.

(** [Shader::Shared]: the program object and its uniform table. *)
Record Shared := {
  program : GLuint;
  uniforms : gmap string UniformData.t
}.

(** A [Shader] holds a shared reference to its [Shared] record.  Nothing
    changes a [Shared] once its constructor has returned, so the reference is
    modelled by the value. *)
Record Shader := { share : Shared }.

(** [Shader::Uniform]: both members are pointers, null when [None]. *)
Record Uniform := {
  shader : option Shader;
  data : option UniformData.t
}.

(** [ShaderProgram]: one source text per stage, [sources[0]] to
    [sources[4]]. *)
Record ShaderProgram := {
  VERT : string;
  TCS : string;
  TES : string;
  GEO : string;
  FRAG : string
}.

Definition sources (source : ShaderProgram) : list string :=
  [VERT source; TCS source; TES source; GEO source; FRAG source].

Definition shaderTypes : list ShaderType :=
  [GL_VERTEX_SHADER; GL_TESS_CONTROL_SHADER; GL_TESS_EVALUATION_SHADER;
   GL_GEOMETRY_SHADER; GL_FRAGMENT_SHADER].

(** ** The code of shader.cpp *)

Section WithDriver.

Variable d : Driver.

Local Open Scope gl_scope.

(** *** The GL entry points, as the code calls them *)

Definition glCreateProgram : M GLuint :=
  ask (on_glCreateProgram d) CreateProgram.

Definition glDeleteProgram (program : GLuint) : M unit :=
  call (DeleteProgram program).

Definition glCreateShader (shaderType : ShaderType) : M GLuint :=
  ask (fun h => on_glCreateShader d h shaderType) (CreateShader shaderType).

Definition glShaderSource (shader : GLuint) (code : string) : M unit :=
  call (ShaderSource shader code).

Definition glCompileShader (shader : GLuint) : M unit :=
  call (CompileShader shader).

Definition glGetShaderiv (shader : GLuint) (pname : GLpname) : M GLint :=
  ask (fun h => on_glGetShaderiv d h shader pname) (GetShaderiv shader pname).

Definition glGetShaderInfoLog
    (shader : GLuint) (bufSize : GLsizei) (infoLog : buffer) : M buffer :=
  chars <- ask (fun h => on_glGetShaderInfoLog d h shader bufSize)
               (GetShaderInfoLog shader bufSize) ;;
  lift_buffer (store infoLog chars).

Definition glAttachShader (program shader : GLuint) : M unit :=
  call (AttachShader program shader).

Definition glLinkProgram (program : GLuint) : M unit :=
  call (LinkProgram program).

Definition glGetProgramiv (program : GLuint) (pname : GLpname) : M GLint :=
  ask (fun h => on_glGetProgramiv d h program pname)
      (GetProgramiv program pname).

Definition glGetProgramInfoLog
    (program : GLuint) (bufSize : GLsizei) (infoLog : buffer) : M buffer :=
  chars <- ask (fun h => on_glGetProgramInfoLog d h program bufSize)
               (GetProgramInfoLog program bufSize) ;;
  lift_buffer (store infoLog chars).

Definition glDetachShader (program shader : GLuint) : M unit :=
  call (DetachShader program shader).

Definition glDeleteShader (shader : GLuint) : M unit :=
  call (DeleteShader shader).

Definition glUseProgram (program : GLuint) : M unit :=
  call (UseProgram program).

Definition glGetActiveUniform
    (program : GLuint) (index : GLuint) (bufSize : GLsizei) (name : buffer)
  : M (GLint * GLenum * buffer) :=
  answer <- ask (fun h => on_glGetActiveUniform d h program index bufSize)
                (GetActiveUniform program index bufSize) ;;
  let '(size, type, chars) := answer in
  name' <- lift_buffer (store name chars) ;;
  ret (size, type, name').

Definition glGetUniformLocation (program : GLuint) (name : string) : M GLint :=
  ask (fun h => on_glGetUniformLocation d h program name)
      (GetUniformLocation program name).

(** *** [Shader::Shared] *)

(** [Shared::Shared()] *)
Definition Shared_new : M Shared :=
  program <- glCreateProgram ;;
  ret {| program := program; uniforms := ∅ |}.

(** [Shared::~Shared()] *)
Definition Shared_delete (s : Shared) : M unit :=
  glDeleteProgram (program s).

(** *** [Shader::Shader(const ShaderProgram&)] *)

(** The [compile] lambda, lines 118-134. *)
Definition compile (id : GLuint) (codeStr : string) : M unit :=
  glShaderSource id (c_str codeStr) ;;
  glCompileShader id ;;
  status <- glGetShaderiv id GL_COMPILE_STATUS ;;
  if decide (status = GL_FALSE) then
    len <- glGetShaderiv id GL_INFO_LOG_LENGTH ;;
    log <- std_vector_GLchar len ;;
    log <- glGetShaderInfoLog id 1024 log ;;
    errStr <- lift_buffer (load_cstr log) ;;
    throw (Shader_exn (mk_CompileError codeStr errStr))
  else ret tt.

(** The loop of lines 146-154 over the slots [i = 0 .. 4], each given as
    the pair [(shaderTypes[i], source.sources[i])]; [ids] is the vector
    being filled. *)
Fixpoint compile_stages
    (slots : list (ShaderType * string)) (ids : list GLuint)
  : M (list GLuint) :=
  match slots with
  | [] => ret ids
  | (shaderType, src) :: slots' =>
      if decide (src <> ""%string) then
        shader <- glCreateShader shaderType ;;
        let ids := ids ++ [shader] in
        compile shader src ;;
        compile_stages slots' ids
      else compile_stages slots' ids
  end.

(** Line 156. *)
Fixpoint attach_all (program : GLuint) (ids : list GLuint) : M unit :=
  match ids with
  | [] => ret tt
  | p :: ids' => glAttachShader program p ;; attach_all program ids'
  end.

(** Lines 159-172: the link status check. *)
Definition check_link (program : GLuint) : M unit :=
  status <- glGetProgramiv program GL_LINK_STATUS ;;
  if decide (status = GL_FALSE) then
    len <- glGetProgramiv program GL_INFO_LOG_LENGTH ;;
    if decide (len >= 1) then
      log <- std_vector_GLchar len ;;
      log <- glGetProgramInfoLog program len log ;;
      errStr <- lift_buffer (load_cstr log) ;;
      throw (Shader_exn (mk_LinkError errStr))
    else ret tt
  else ret tt.

(** Lines 174-178. *)
Fixpoint detach_delete_all (program : GLuint) (ids : list GLuint) : M unit :=
  match ids with
  | [] => ret tt
  | p :: ids' =>
      glDetachShader program p ;;
      glDeleteShader p ;;
      detach_delete_all program ids'
  end.

(** The loop of [Shader::initUniforms], lines 211-216, over the indices
    still to visit; [name] is the one buffer every iteration writes and
    reads, [table] is [share->uniforms]. *)
Fixpoint initUniforms_loop
    (program : GLuint) (maxLength : GLint) (indices : list nat)
    (name : buffer) (table : gmap string UniformData.t)
  : M (gmap string UniformData.t) :=
  match indices with
  | [] => ret table
  | i :: indices' =>
      out <- glGetActiveUniform program (Z.of_nat i) maxLength name ;;
      let '(size, type, name) := out in
      nameStr <- lift_buffer (load_cstr name) ;;
      location <- glGetUniformLocation program nameStr ;;
      let tmpUniform := UniformData.mk size type location in
      initUniforms_loop program maxLength indices' name
                        (<[nameStr := tmpUniform]> table)
  end.

(** [Shader::initUniforms] *)
Definition initUniforms (s : Shared) : M Shared :=
  numUniforms <- glGetProgramiv (program s) GL_ACTIVE_UNIFORMS ;;
  maxLength <- glGetProgramiv (program s) GL_ACTIVE_UNIFORM_MAX_LENGTH ;;
  name <- new_GLchar maxLength ;;
  table <- initUniforms_loop (program s) maxLength
             (seq 0 (Z.to_nat numUniforms)) name (uniforms s) ;;
  ret {| program := program s; uniforms := table |}.

(** Lines 159-180: everything after [glLinkProgram]. *)
Definition after_link (s : Shared) (ids : list GLuint) : M Shared :=
  check_link (program s) ;;
  detach_delete_all (program s) ids ;;
  initUniforms s.

(** The constructor body, lines 118-180, on the freshly made [share]. *)
Definition Shader_body (s : Shared) (source : ShaderProgram) : M Shared :=
  ids <- compile_stages (zip shaderTypes (sources source)) [] ;;
  attach_all (program s) ids ;;
  glLinkProgram (program s) ;;
  after_link s ids.

(** When the body throws, the member [share] is destroyed on the way out;
    it is the only owner, so [~Shared] runs. *)
Definition unwinding {A} (body : M A) (cleanup : M unit) : M A :=
  fun w =>
    match body w with
    | (Throw e, w') => (Throw e, snd (cleanup w'))
    | r => r
    end.

(** [Shader::Shader(const ShaderProgram &source)] *)
Definition Shader_new (source : ShaderProgram) : M Shader :=
  s <- Shared_new ;;
  s' <- unwinding (Shader_body s source) (Shared_delete s) ;;
  ret {| share := s' |}.

(** *** Binding, on the calling thread [t] *)

(** [Shader::isBound] *)
Definition isBound (t : ThreadId) (sh : Shader) (w : World) : bool :=
  bool_decide (boundProgram w t = program (share sh)).

(** The assignment [boundProgram = p] executed by thread [t]. *)
Definition set_boundProgram (t : ThreadId) (p : GLuint) : M unit :=
  fun w =>
    (Ok tt,
     {| gl_calls := gl_calls w;
        boundProgram := fun t' => if decide (t' = t) then p else boundProgram w t' |}).

(** [Shader::bind] *)
Definition bind (t : ThreadId) (sh : Shader) : M unit :=
  fun w =>
    if isBound t sh w then ret tt w
    else (glUseProgram (program (share sh)) ;;
          set_boundProgram t (program (share sh))) w.

(** *** [Shader::uniform] *)

(** [this] is the shader the call is made on. *)
Definition uniform (this : Shader) (name : string) : Uniform :=
  match uniforms (share this) !! name with
  | None => {| shader := Some this; data := None |}
  | Some entry => {| shader := Some this; data := Some entry |}
  end.

End WithDriver.

(** ** A scripted driver

    A driver whose answers follow a fixed script; it follows the OpenGL
    reference pages for identifiers (fresh, non-zero) and for string outputs
    (at most [bufSize] characters, the terminator included).  The examples
    below run the code against it. *)

Module Scripted.

Record Script := {
  compiles : string -> bool;
  shader_log_length : GLint;
  shader_log : string;
  links : bool;
  program_log_length : GLint;
  program_log : string;
  (* name, array size, type tag, location *)
  active : list (string * GLint * GLenum * GLint)
}.

(** What a string query stores for the text [s] and a buffer size. *)
Definition chars_for (bufSize : GLsizei) (s : string) : list GLchar :=
  if decide (bufSize <= 0) then []
  else take (Z.to_nat (bufSize - 1)) (list_ascii_of_string s) ++ [NUL].

Definition fresh (h : list GLCall) : GLuint := Z.of_nat (S (length h)).

(** The source last submitted for [shader]. *)
Definition source_of (h : list GLCall) (shader : GLuint) : string :=
  foldl (fun acc c =>
           match c with
           | ShaderSource s code => if decide (s = shader) then code else acc
           | _ => acc
           end) ""%string h.

Definition of_bool (b : bool) : GLint := if b then 1 else 0.

Fixpoint location_of (us : list (string * GLint * GLenum * GLint)) (name : string)
  : GLint :=
  match us with
  | [] => -1
  | (n, _, _, loc) :: us' =>
      if decide (n = name) then loc else location_of us' name
  end.

Definition max_name_length (us : list (string * GLint * GLenum * GLint)) : GLint :=
  foldr (fun u acc => Z.max (Z.of_nat (String.length (u.1.1.1)) + 1) acc) 0 us.

Definition driver (s : Script) : Driver := {|
  on_glCreateProgram := fresh;
  on_glCreateShader := fun h _ => fresh h;
  on_glGetShaderiv := fun h shader pname =>
    match pname with
    | GL_COMPILE_STATUS => of_bool (compiles s (source_of h shader))
    | GL_INFO_LOG_LENGTH => shader_log_length s
    | _ => 0
    end;
  on_glGetShaderInfoLog := fun _ _ bufSize => chars_for bufSize (shader_log s);
  on_glGetProgramiv := fun _ _ pname =>
    match pname with
    | GL_LINK_STATUS => of_bool (links s)
    | GL_INFO_LOG_LENGTH => program_log_length s
    | GL_ACTIVE_UNIFORMS => Z.of_nat (length (active s))
    | GL_ACTIVE_UNIFORM_MAX_LENGTH => max_name_length (active s)
    | _ => 0
    end;
  on_glGetProgramInfoLog := fun _ _ bufSize => chars_for bufSize (program_log s);
  on_glGetActiveUniform := fun _ _ index bufSize =>
    match active s !! Z.to_nat index with
    | Some (n, size, type, _) => (size, type, chars_for bufSize n)
    | None => (0, 0, [])
    end;
  on_glGetUniformLocation := fun _ _ name => location_of (active s) name
|}.

End Scripted.


(** ** Vocabulary of the statements *)


(** The text a C-string read finds in the characters [chars]: everything
    before the first terminator. *)
Fixpoint text_of (chars : list GLchar) : string :=
  match chars with
  | [] => EmptyString
  | c :: rest => if decide (c = NUL) then EmptyString else String c (text_of rest)
  end.

(** [part] occurs in [whole]. *)
Definition contains (part whole : string) : Prop :=
  exists pre post, whole = (pre ++ part ++ post)%string.

(** What the driver reports to the [compile] lambda called on [id] and
    [codeStr] in world [w]: the worlds in which the three queries are made,
    and their answers. *)
Section CompileQueries.

Variables (d : Driver) (id : GLuint) (codeStr : string) (w : World).

Definition at_compile_status : World :=
  log_call (CompileShader id) (log_call (ShaderSource id (c_str codeStr)) w).

Definition compile_status : GLint :=
  on_glGetShaderiv d (gl_calls at_compile_status) id GL_COMPILE_STATUS.

Definition at_shader_log_length : World :=
  log_call (GetShaderiv id GL_COMPILE_STATUS) at_compile_status.

Definition shader_log_length : GLint :=
  on_glGetShaderiv d (gl_calls at_shader_log_length) id GL_INFO_LOG_LENGTH.

Definition at_shader_log : World :=
  log_call (GetShaderiv id GL_INFO_LOG_LENGTH) at_shader_log_length.

Definition shader_log_chars : list GLchar :=
  on_glGetShaderInfoLog d (gl_calls at_shader_log) id 1024.

Definition after_shader_log : World :=
  log_call (GetShaderInfoLog id 1024) at_shader_log.

End CompileQueries.

(** What the driver reports to the link check made on [program] in world
    [w]. *)
Section LinkQueries.

Variables (d : Driver) (program : GLuint) (w : World).

Definition link_status : GLint :=
  on_glGetProgramiv d (gl_calls w) program GL_LINK_STATUS.

Definition at_program_log_length : World :=
  log_call (GetProgramiv program GL_LINK_STATUS) w.

Definition program_log_length : GLint :=
  on_glGetProgramiv d (gl_calls at_program_log_length) program GL_INFO_LOG_LENGTH.

Definition at_program_log : World :=
  log_call (GetProgramiv program GL_INFO_LOG_LENGTH) at_program_log_length.

Definition program_log_chars : list GLchar :=
  on_glGetProgramInfoLog d (gl_calls at_program_log) program program_log_length.

Definition after_program_log : World :=
  log_call (GetProgramInfoLog program program_log_length) at_program_log.

End LinkQueries.

(** The world in which the constructor, having attached [ids] in [w0], has
    called [glLinkProgram] and is about to query the link status. *)
Definition at_link_status (program : GLuint) (ids : list GLuint) (w0 : World) : World :=
  log_call (LinkProgram program) (snd (attach_all program ids w0)).

(** The rest of the constructor once the link check has let it pass: lines
    174-180, inside the constructor's unwinding. *)
Definition finish (d : Driver) (s : Shared) (ids : list GLuint) : M Shader :=
  (s' <- unwinding (detach_delete_all (program s) ids ;; initUniforms d s)
                   (Shared_delete s) ;;
   ret {| share := s' |})%gl.

(** The part of a call log that concerns stage objects, with the driver's
    identifiers left out. *)
Inductive StageStep :=
| Created (shaderType : ShaderType)
| Sourced (code : string)
| Compiled.

Definition stage_step (c : GLCall) : option StageStep :=
  match c with
  | CreateShader shaderType => Some (Created shaderType)
  | ShaderSource _ code => Some (Sourced code)
  | CompileShader _ => Some Compiled
  | _ => None
  end.

Definition stage_steps (h : list GLCall) : list StageStep := omap stage_step h.

(** Calls that neither create, source nor compile a stage object. *)
Definition quiet (ev : list GLCall) : Prop := stage_steps ev = [].

(** What the constructor is expected to do about stages: for each slot that
    holds source text, in slot order, create a stage object of the slot's
    type, submit the text and compile; nothing for an empty slot. *)
Definition steps_of (slots : list (ShaderType * string)) : list StageStep :=
  filter (fun slot => slot.2 <> ""%string) slots
    ≫= fun slot => [Created slot.1; Sourced (c_str slot.2); Compiled].

Definition planned_steps (source : ShaderProgram) : list StageStep :=
  steps_of [(GL_VERTEX_SHADER, VERT source);
            (GL_TESS_CONTROL_SHADER, TCS source);
            (GL_TESS_EVALUATION_SHADER, TES source);
            (GL_GEOMETRY_SHADER, GEO source);
            (GL_FRAGMENT_SHADER, FRAG source)].

(** [m] only ever appends to the call log, and what it appends satisfies
    [P]. *)
Definition appends {A} (P : list GLCall -> Prop) (m : M A) : Prop :=
  forall w, exists ev, gl_calls (snd (m w)) = gl_calls w ++ ev /\ P ev.

(** [w] with the calls [cs] appended to its log. *)
Definition log_calls (cs : list GLCall) (w : World) : World :=
  {| gl_calls := gl_calls w ++ cs; boundProgram := boundProgram w |}.

(** The driver [d] reports, at any point of the history, that [program] has
    the active uniforms [us] (name, array size, type tag; index [i] is the
    [i]-th element) and the longest-name bound [maxLength]; it writes each
    name, terminated, within [maxLength] characters; and it resolves names
    to locations by [loc]. *)
Definition reports_uniforms
    (d : Driver) (program : GLuint) (maxLength : GLint)
    (us : list (string * GLint * GLenum)) (loc : string -> GLint) : Prop :=
  0 <= maxLength /\
  (forall h, on_glGetProgramiv d h program GL_ACTIVE_UNIFORMS
             = Z.of_nat (length us)) /\
  (forall h, on_glGetProgramiv d h program GL_ACTIVE_UNIFORM_MAX_LENGTH
             = maxLength) /\
  (forall h i name size type,
     us !! i = Some (name, size, type) ->
     exists chars,
       on_glGetActiveUniform d h program (Z.of_nat i) maxLength
       = (size, type, chars) /\
       Z.of_nat (length chars) <= maxLength /\
       NUL ∈ chars /\
       text_of chars = name) /\
  (forall h name, on_glGetUniformLocation d h program name = loc name).

(** The table after storing an entry for each of [us], in order, over
    [table]: a later entry replaces an earlier one of the same name. *)
Definition table_of
    (loc : string -> GLint) (us : list (string * GLint * GLenum))
    (table : gmap string UniformData.t) : gmap string UniformData.t :=
  foldl (fun t u => <[u.1.1 := UniformData.mk u.1.2 u.2 (loc u.1.1)]> t) table us.

(** The queries of the loop for the uniforms [us], the first of which has
    index [k]: metadata by index, then the location by name. *)
Fixpoint uniform_calls
    (program : GLuint) (maxLength : GLint) (k : nat)
    (us : list (string * GLint * GLenum)) : list GLCall :=
  match us with
  | [] => []
  | u :: us' =>
      GetActiveUniform program (Z.of_nat k) maxLength
        :: GetUniformLocation program u.1.1
        :: uniform_calls program maxLength (S k) us'
  end.

Definition introspection_calls
    (program : GLuint) (maxLength : GLint)
    (us : list (string * GLint * GLenum)) : list GLCall :=
  GetProgramiv program GL_ACTIVE_UNIFORMS
    :: GetProgramiv program GL_ACTIVE_UNIFORM_MAX_LENGTH
    :: uniform_calls program maxLength 0 us.

(** The stage loop of the constructor, started in world [w], gets through
    the slots [pre] without an exception and arrives, with the vector [ids]
    and in world [w0], at a slot holding the source text [codeStr]. *)
Definition reaches_stage
    (d : Driver) (source : ShaderProgram) (w : World)
    (pre : list (ShaderType * string)) (shaderType : ShaderType)
    (codeStr : string) (rest : list (ShaderType * string))
    (ids : list GLuint) (w0 : World) : Prop :=
  zip shaderTypes (sources source) = pre ++ (shaderType, codeStr) :: rest /\
  codeStr <> ""%string /\
  compile_stages d pre [] (log_call CreateProgram w) = (Ok ids, w0).

(** The statement about compile errors with the diagnostic required to be
    non-empty: whenever construction reaches a stage whose compile status
    is reported as failure, it aborts with a [ShaderE_CompileError] whose
    message contains the source text and the text fetched from the driver's
    log, and that text is not empty. *)
Definition nonempty_diagnostic_claim
    (d : Driver) (source : ShaderProgram) (w : World) : Prop :=
  forall pre shaderType codeStr rest ids w0,
    reaches_stage d source w pre shaderType codeStr rest ids w0 ->
    let id := on_glCreateShader d (gl_calls w0) shaderType in
    let wc := log_call (CreateShader shaderType) w0 in
    compile_status d id codeStr wc = GL_FALSE ->
    exists msg diag,
      fst (Shader_new d source w) = Throw (Shader_exn (ShaderE_CompileError msg)) /\
      contains codeStr msg /\
      diag = text_of (shader_log_chars d id codeStr wc) /\
      diag <> ""%string /\
      contains diag msg.

(** The statement that introspection has no error path: called on any
    [Shared] record in any world, with any driver, [initUniforms] returns. *)
Definition introspection_never_fails (d : Driver) (s : Shared) (w : World) : Prop :=
  exists s' w', initUniforms d s w = (Ok s', w').

(** ** Example scripts and sources *)

Definition compiles_unless_bad (code : string) : bool :=
  negb (String.eqb code "bad").

(** A fragment stage that does not compile; the log says why. *)
Definition talkative_compiler : Scripted.Script := {|
  Scripted.compiles := compiles_unless_bad;
  Scripted.shader_log_length := 6;
  Scripted.shader_log := "oops!";
  Scripted.links := true;
  Scripted.program_log_length := 0;
  Scripted.program_log := "";
  Scripted.active := []
|}.

(** The same, with a log that holds the terminator only. *)
Definition silent_compiler : Scripted.Script := {|
  Scripted.compiles := compiles_unless_bad;
  Scripted.shader_log_length := 1;
  Scripted.shader_log := "";
  Scripted.links := true;
  Scripted.program_log_length := 0;
  Scripted.program_log := "";
  Scripted.active := []
|}.

(** Stages that compile but do not link; the program log says why. *)
Definition failing_linker : Scripted.Script := {|
  Scripted.compiles := compiles_unless_bad;
  Scripted.shader_log_length := 0;
  Scripted.shader_log := "";
  Scripted.links := false;
  Scripted.program_log_length := 13;
  Scripted.program_log := "link failed!";
  Scripted.active := []
|}.

(** The same, with no program log at all. *)
Definition unexplained_link_failure : Scripted.Script := {|
  Scripted.compiles := compiles_unless_bad;
  Scripted.shader_log_length := 0;
  Scripted.shader_log := "";
  Scripted.links := false;
  Scripted.program_log_length := 0;
  Scripted.program_log := "";
  Scripted.active := []
|}.

Definition vertex_only : ShaderProgram := {|
  VERT := "void main(){}"; TCS := ""; TES := ""; GEO := ""; FRAG := ""
|}.

(** A program with two active uniforms. *)
Definition two_uniforms : Scripted.Script := {|
  Scripted.compiles := compiles_unless_bad;
  Scripted.shader_log_length := 0;
  Scripted.shader_log := "";
  Scripted.links := true;
  Scripted.program_log_length := 0;
  Scripted.program_log := "";
  Scripted.active :=
    [("u_color"%string, 1, 35666, 0); ("u_mvp"%string, 1, 35676, 1)]
|}.

(** A shader as the constructor leaves it for [two_uniforms]. *)
Definition colour_shader : Shader := {|
  share := {|
    program := 1;
    uniforms := {[ "u_color"%string := UniformData.mk 1 35666 0;
                   "u_mvp"%string := UniformData.mk 1 35676 1 ]}
  |}
|}.

Definition other_shader : Shader :=
  {| share := {| program := 7; uniforms := ∅ |} |}.

(** A driver that reports no active uniforms and a name bound of -1. *)
Definition negative_bound_driver : Driver := {|
  on_glCreateProgram := on_glCreateProgram (Scripted.driver two_uniforms);
  on_glCreateShader := on_glCreateShader (Scripted.driver two_uniforms);
  on_glGetShaderiv := on_glGetShaderiv (Scripted.driver two_uniforms);
  on_glGetShaderInfoLog := on_glGetShaderInfoLog (Scripted.driver two_uniforms);
  on_glGetProgramiv := fun _ _ pname =>
    match pname with
    | GL_ACTIVE_UNIFORM_MAX_LENGTH => -1
    | _ => 0
    end;
  on_glGetProgramInfoLog := on_glGetProgramInfoLog (Scripted.driver two_uniforms);
  on_glGetActiveUniform := on_glGetActiveUniform (Scripted.driver two_uniforms);
  on_glGetUniformLocation := on_glGetUniformLocation (Scripted.driver two_uniforms)
|}.

Definition bad_fragment : ShaderProgram := {|
  VERT := "void main(){}"; TCS := ""; TES := ""; GEO := ""; FRAG := "bad"
|}.

(** ** Vocabulary of the further properties *)

(** The calls the stage loop makes. *)
Definition stage_call (c : GLCall) : bool :=
  match c with
  | CreateShader _ | ShaderSource _ _ | CompileShader _
  | GetShaderiv _ _ | GetShaderInfoLog _ _ => true
  | _ => false
  end.

(** The calls of the [compile] lambda. *)
Definition compile_call (c : GLCall) : bool :=
  match c with
  | ShaderSource _ _ | CompileShader _
  | GetShaderiv _ _ | GetShaderInfoLog _ _ => true
  | _ => false
  end.

(** The identifiers the driver [d] answers to the [glCreateShader] calls
    among [ev], a stretch of log that follows the history [h]. *)
Fixpoint created_ids (d : Driver) (h ev : list GLCall) : list GLuint :=
  match ev with
  | [] => []
  | c :: ev' =>
      match c with
      | CreateShader shaderType =>
          on_glCreateShader d h shaderType :: created_ids d (h ++ [c]) ev'
      | _ => created_ids d (h ++ [c]) ev'
      end
  end.

(** Queries about a program object. *)
Definition program_query (c : GLCall) : bool :=
  match c with
  | GetProgramiv _ _ | GetProgramInfoLog _ _
  | GetActiveUniform _ _ _ | GetUniformLocation _ _ => true
  | _ => false
  end.

(** Detaching or deleting a stage object. *)
Definition release_call (c : GLCall) : bool :=
  match c with
  | DetachShader _ _ | DeleteShader _ => true
  | _ => false
  end.

(** Attaching a stage object, or linking. *)
Definition link_call (c : GLCall) : bool :=
  match c with
  | AttachShader _ _ | LinkProgram _ => true
  | _ => false
  end.

(** The calls of the constructor body. *)
Definition body_call (c : GLCall) : bool :=
  stage_call c || link_call c || program_query c || release_call c.

(** Everything but [glUseProgram]. *)
Definition not_activation (c : GLCall) : bool :=
  match c with
  | UseProgram _ => false
  | _ => true
  end.

(** Queries about a program object, and its deletion. *)
Definition program_call (c : GLCall) : bool :=
  program_query c || match c with DeleteProgram _ => true | _ => false end.

(** [m] leaves every [boundProgram] slot alone and appends to the call log
    only calls that satisfy [Q]. *)
Definition emits {A} (Q : GLCall -> bool) (m : M A) : Prop :=
  forall w, exists ev, snd (m w) = log_calls ev w /\ forallb Q ev = true.

(** Every exception [m] can leave with satisfies [E]. *)
Definition raises {A} (E : exn -> Prop) (m : M A) : Prop :=
  forall w e, fst (m w) = Throw e -> E e.

(** The exceptions a construction from [source] can end with. *)
Definition construction_exn (source : ShaderProgram) (e : exn) : Prop :=
  (exists codeStr errStr,
     codeStr ∈ sources source /\ codeStr <> ""%string /\
     e = Shader_exn (mk_CompileError codeStr errStr)) \/
  (exists errStr, e = Shader_exn (mk_LinkError errStr)) \/
  e = std_length_error \/
  e = std_bad_alloc.

(** What the driver reports to [initUniforms] called on [s] in world [w]:
    the number of active uniforms, the bound on their name lengths, and the
    characters it stores for the name of index 0. *)
Section IntrospectionQueries.

Variables (d : Driver) (s : Shared) (w : World).

Definition uniform_count : GLint :=
  on_glGetProgramiv d (gl_calls w) (program s) GL_ACTIVE_UNIFORMS.

Definition name_bound : GLint :=
  on_glGetProgramiv d
    (gl_calls (log_call (GetProgramiv (program s) GL_ACTIVE_UNIFORMS) w))
    (program s) GL_ACTIVE_UNIFORM_MAX_LENGTH.

Definition first_name_chars : list GLchar :=
  (on_glGetActiveUniform d
     (gl_calls
        (log_call (GetProgramiv (program s) GL_ACTIVE_UNIFORM_MAX_LENGTH)
           (log_call (GetProgramiv (program s) GL_ACTIVE_UNIFORMS) w)))
     (program s) 0 name_bound).2.

End IntrospectionQueries.

(** A caller binding the shaders [shs] one after the other on thread [t]. *)
Fixpoint bind_each (t : ThreadId) (shs : list Shader) : M unit :=
  match shs with
  | [] => ret tt
  | sh :: shs' => (bind t sh ;; bind_each t shs')%gl
  end.

(** The programs a thread whose active program is [current] has to activate
    when asked for [ps] in turn: a request for the program that is already
    active needs nothing. *)
Fixpoint activations (current : GLuint) (ps : list GLuint) : list GLuint :=
  match ps with
  | [] => []
  | p :: ps' =>
      if decide (current = p) then activations p ps'
      else p :: activations p ps'
  end.

(** ** Examples for the further properties *)

(** Everything compiles and links; two active uniforms. *)
Definition all_good : Scripted.Script := {|
  Scripted.compiles := fun _ => true;
  Scripted.shader_log_length := 0;
  Scripted.shader_log := "";
  Scripted.links := true;
  Scripted.program_log_length := 0;
  Scripted.program_log := "";
  Scripted.active :=
    [("u_color"%string, 1, 35666, 0); ("u_mvp"%string, 1, 35676, 1)]
|}.

(** A driver whose [glCreateProgram] fails, answering 0, and which goes
    along with everything else. *)
Definition no_program_driver : Driver := {|
  on_glCreateProgram := fun _ => 0;
  on_glCreateShader := on_glCreateShader (Scripted.driver all_good);
  on_glGetShaderiv := on_glGetShaderiv (Scripted.driver all_good);
  on_glGetShaderInfoLog := on_glGetShaderInfoLog (Scripted.driver all_good);
  on_glGetProgramiv := on_glGetProgramiv (Scripted.driver all_good);
  on_glGetProgramInfoLog := on_glGetProgramInfoLog (Scripted.driver all_good);
  on_glGetActiveUniform := on_glGetActiveUniform (Scripted.driver all_good);
  on_glGetUniformLocation := on_glGetUniformLocation (Scripted.driver all_good)
|}.

(** A driver that reports one active uniform and a name bound of 0. *)
Definition no_room_driver : Driver := {|
  on_glCreateProgram := on_glCreateProgram (Scripted.driver all_good);
  on_glCreateShader := on_glCreateShader (Scripted.driver all_good);
  on_glGetShaderiv := on_glGetShaderiv (Scripted.driver all_good);
  on_glGetShaderInfoLog := on_glGetShaderInfoLog (Scripted.driver all_good);
  on_glGetProgramiv := fun _ _ pname =>
    match pname with
    | GL_ACTIVE_UNIFORMS => 1
    | _ => 0
    end;
  on_glGetProgramInfoLog := on_glGetProgramInfoLog (Scripted.driver all_good);
  on_glGetActiveUniform := on_glGetActiveUniform (Scripted.driver all_good);
  on_glGetUniformLocation := on_glGetUniformLocation (Scripted.driver all_good)
|}.

Definition no_sources : ShaderProgram := {|
  VERT := ""; TCS := ""; TES := ""; GEO := ""; FRAG := ""
|}.

(** ** Bind tracking *)

Section Binding.

Lemma bind_unbound t sh w :
  isBound t sh w = false ->
  bind t sh w =
    (Ok tt,
     {| gl_calls := gl_calls w ++ [UseProgram (program (share sh))];
        boundProgram := fun t' =>
          if decide (t' = t) then program (share sh) else boundProgram w t' |}).
Proof. intros Hb. unfold bind. rewrite Hb. reflexivity. Qed.

Lemma bind_bound t sh w : isBound t sh w = true -> bind t sh w = (Ok tt, w).
Proof. intros Hb. unfold bind. rewrite Hb. reflexivity. Qed.

Lemma bind_returns t sh w : fst (bind t sh w) = Ok tt.
Proof.
  destruct (isBound t sh w) eqn:Hb;
    [rewrite bind_bound | rewrite bind_unbound]; done.
Qed.

Lemma isBound_after_bind t sh w : isBound t sh (snd (bind t sh w)) = true.
Proof.
  destruct (isBound t sh w) eqn:Hb.
  - rewrite bind_bound; done.
  - rewrite bind_unbound by done. unfold isBound; simpl.
    rewrite decide_True by done. by apply bool_decide_eq_true.
Qed.

Lemma bind_other_thread t t' sh w :
  t' <> t -> boundProgram (snd (bind t sh w)) t' = boundProgram w t'.
Proof.
  intros Hne. destruct (isBound t sh w) eqn:Hb.
  - rewrite bind_bound; done.
  - rewrite bind_unbound by done. simpl. by rewrite decide_False.
Qed.

End Binding.

(** C4. [isBound] on a thread is true exactly when the shader's program
    identifier equals that thread's [boundProgram]; and [bind] returns
    normally, leaving [isBound] true on the same thread. *)
Theorem isBound_iff_bound_program (t : ThreadId) (sh : Shader) (w : World) :
  (isBound t sh w = true <-> boundProgram w t = program (share sh)) /\
  (exists w', bind t sh w = (Ok tt, w') /\ isBound t sh w' = true).
Proof.
  split.
  - unfold isBound. apply bool_decide_eq_true.
  - exists (snd (bind t sh w)). split.
    + rewrite <- (bind_returns t sh w). by destruct (bind t sh w).
    + apply isBound_after_bind.
Qed.

Lemma isBound_iff_bound_program_witness :
  isBound 0%nat colour_shader (snd (bind 0%nat colour_shader initial_World)) = true /\
  isBound 0%nat colour_shader initial_World = false.
Proof.
  split.
  - apply (isBound_iff_bound_program 0%nat colour_shader
             (snd (bind 0%nat colour_shader initial_World))).
    reflexivity.
  - destruct (isBound 0%nat colour_shader initial_World) eqn:Hb; [| reflexivity].
    apply (isBound_iff_bound_program 0%nat colour_shader initial_World) in Hb.
    discriminate Hb.
Defined.

(** C5. [bind] is idempotent: on a thread where the shader's program is
    already the active one it makes no GL call and leaves the world, hence
    the thread's [boundProgram], as it was; two calls in a row end in the
    same world, with the same result, as one call. *)
Theorem bind_idempotent (t : ThreadId) (sh : Shader) (w : World) :
  (isBound t sh w = true -> bind t sh w = (Ok tt, w)) /\
  (bind t sh ;; bind t sh)%gl w = bind t sh w.
Proof.
  split; [apply bind_bound |].
  unfold bindM.
  pose proof (bind_returns t sh w) as Hret.
  pose proof (isBound_after_bind t sh w) as Hb.
  destruct (bind t sh w) as [r w1]; simpl in *; subst r.
  by rewrite bind_bound.
Qed.

Lemma bind_idempotent_witness :
  bind 0%nat colour_shader (snd (bind 0%nat colour_shader initial_World))
  = (Ok tt, snd (bind 0%nat colour_shader initial_World)).
Proof.
  apply (proj1 (bind_idempotent 0%nat colour_shader
                  (snd (bind 0%nat colour_shader initial_World)))).
  reflexivity.
Defined.

(** C9. [bind] on thread [t1] writes only [t1]'s [boundProgram] slot: the
    slot of any other thread [t2], and so the answer of [isBound] for any
    shader on [t2], is what it was before. *)
Theorem bind_thread_isolation (t1 t2 : ThreadId) (sh : Shader) (w : World) :
  t1 <> t2 ->
  boundProgram (snd (bind t1 sh w)) t2 = boundProgram w t2 /\
  (forall sh', isBound t2 sh' (snd (bind t1 sh w)) = isBound t2 sh' w).
Proof.
  intros Hne.
  assert (boundProgram (snd (bind t1 sh w)) t2 = boundProgram w t2) as Heq
    by (apply bind_other_thread; congruence).
  split; [done |].
  intros sh'. unfold isBound. by rewrite Heq.
Qed.

Lemma bind_thread_isolation_witness :
  isBound 1%nat other_shader
    (snd (bind 0%nat colour_shader (snd (bind 1%nat other_shader initial_World))))
  = isBound 1%nat other_shader (snd (bind 1%nat other_shader initial_World)).
Proof.
  apply (bind_thread_isolation 0%nat 1%nat colour_shader
           (snd (bind 1%nat other_shader initial_World))).
  lia.
Defined.

(** C6. [uniform] looks the name up in the uniform table of the shader's
    [Shared] record.  It is a total function with no exceptional result:
    the entry of the returned reference is the table's entry for the name,
    absent when the name is not in the table and present when it is, and the
    reference always points back at the shader. *)
Theorem uniform_lookup (this : Shader) (name : string) :
  data (uniform this name) = uniforms (share this) !! name /\
  shader (uniform this name) = Some this /\
  (name ∉ dom (uniforms (share this)) -> data (uniform this name) = None) /\
  (name ∈ dom (uniforms (share this)) -> is_Some (data (uniform this name))).
Proof.
  unfold uniform.
  destruct (uniforms (share this) !! name) as [entry|] eqn:Hl; simpl.
  - split_and!; try done.
    intros Hnot. exfalso. apply Hnot. apply elem_of_dom. by eexists.
  - split_and!; try done.
    intros Hin. apply elem_of_dom in Hin. rewrite Hl in Hin. by destruct Hin.
Qed.

Lemma uniform_lookup_witness :
  is_Some (data (uniform colour_shader "u_color")) /\
  data (uniform colour_shader "does_not_exist") = None.
Proof.
  split.
  - apply (uniform_lookup colour_shader "u_color").
    apply (bool_decide_unpack _). by vm_compute.
  - apply (uniform_lookup colour_shader "does_not_exist").
    apply (bool_decide_unpack _). by vm_compute.
Defined.

(** ** Character buffers *)

Lemma load_cstr_terminated (chars : list GLchar) (rest : buffer) :
  NUL ∈ chars -> load_cstr ((Some <$> chars) ++ rest) = Some (text_of chars).
Proof.
  induction chars as [|c chars IH]; intros Hin.
  - by apply elem_of_nil in Hin.
  - rewrite fmap_cons. cbn [app load_cstr text_of].
    destruct (decide (c = NUL)) as [->|Hc]; [done |].
    apply elem_of_cons in Hin as [Heq|Hin]; [congruence |].
    by rewrite IH.
Qed.

Lemma load_cstr_zeroes (chars : list GLchar) (n : nat) :
  (0 < n)%nat ->
  load_cstr ((Some <$> chars) ++ replicate n (Some NUL)) = Some (text_of chars).
Proof.
  intros Hn. induction chars as [|c chars IH].
  - destruct n; [lia | done].
  - rewrite fmap_cons. cbn [app load_cstr text_of].
    destruct (decide (c = NUL)); [done |]. by rewrite IH.
Qed.

Lemma load_cstr_nonempty (buf : buffer) (s : string) :
  load_cstr buf = Some s -> (0 < length buf)%nat.
Proof. destruct buf; simpl; [done | lia]. Qed.

Lemma store_Some (buf buf' : buffer) (chars : list GLchar) :
  store buf chars = Some buf' ->
  (length chars <= length buf)%nat /\
  buf' = (Some <$> chars) ++ drop (length chars) buf.
Proof. unfold store. case_decide; naive_solver. Qed.

Lemma store_fits (buf : buffer) (chars : list GLchar) :
  (length chars <= length buf)%nat ->
  store buf chars = Some ((Some <$> chars) ++ drop (length chars) buf).
Proof. intros H. unfold store. by rewrite decide_True. Qed.

(** Storing into a value-initialised vector and reading the text back. *)
Lemma vector_store_load (n : nat) (chars : list GLchar) :
  (length chars <= n)%nat -> (1 <= n)%nat -> chars = [] \/ NUL ∈ chars ->
  exists buf', store (replicate n (Some NUL)) chars = Some buf' /\
               load_cstr buf' = Some (text_of chars).
Proof.
  intros Hlen Hn Hterm. eexists. split.
  - apply store_fits. by rewrite length_replicate.
  - destruct Hterm as [->|Hin].
    + destruct n; [lia | done].
    + by apply load_cstr_terminated.
Qed.

(** ** The compile lambda *)

Section Compile.

Variables (d : Driver) (id : GLuint) (codeStr : string) (w : World).

Lemma compile_success :
  compile_status d id codeStr w <> GL_FALSE ->
  compile d id codeStr w = (Ok tt, at_shader_log_length id codeStr w).
Proof.
  unfold compile_status, at_shader_log_length, at_compile_status.
  intros Hs. unfold compile, bindM; simpl.
  by rewrite decide_False.
Qed.

(** The failure branch, lines 128-132, step by step. *)
Lemma compile_failure :
  compile_status d id codeStr w = GL_FALSE ->
  compile d id codeStr w =
    if decide (shader_log_length d id codeStr w < 0)
    then (Throw std_length_error, at_shader_log id codeStr w)
    else
      match store (replicate (Z.to_nat (shader_log_length d id codeStr w))
                             (Some NUL))
                  (shader_log_chars d id codeStr w)
              ≫= load_cstr with
      | Some errStr =>
          (Throw (Shader_exn (mk_CompileError codeStr errStr)),
           after_shader_log id codeStr w)
      | None => (Undefined, after_shader_log id codeStr w)
      end.
Proof.
  unfold shader_log_chars, after_shader_log, at_shader_log,
    shader_log_length, compile_status, at_shader_log_length,
    at_compile_status.
  intros Hs. unfold compile, bindM; simpl.
  rewrite decide_True by done.
  unfold std_vector_GLchar.
  destruct (decide (_ < 0)); [reflexivity |].
  unfold ret, glGetShaderInfoLog, bindM, ask; simpl.
  destruct (store _ _) as [buf|]; simpl; [| reflexivity].
  destruct (load_cstr buf); reflexivity.
Qed.

End Compile.

(** ** Monad laws, pointwise *)

Lemma gl_calls_log_call (c : GLCall) (w : World) :
  gl_calls (log_call c w) = gl_calls w ++ [c].
Proof. reflexivity. Qed.

Lemma bindM_assoc {A B C} (m : M A) (k : A -> M B) (f : B -> M C) (w : World) :
  bindM (bindM m k) f w = bindM m (fun a => bindM (k a) f) w.
Proof. unfold bindM. by destruct (m w) as [[a| |] w']. Qed.

Lemma bindM_ext {A B} (m : M A) (k k' : A -> M B) (w : World) :
  (forall a w', k a w' = k' a w') -> bindM m k w = bindM m k' w.
Proof. intros Hk. unfold bindM. by destruct (m w) as [[a| |] w']. Qed.

Lemma bindM_cong {A B} (m m' : M A) (k : A -> M B) (w w' : World) :
  m w = m' w' -> bindM m k w = bindM m' k w'.
Proof. intros Hm. unfold bindM. by rewrite Hm. Qed.

Lemma bindM_Ok {A B} (m : M A) (k : A -> M B) (w w' : World) (a : A) :
  m w = (Ok a, w') -> bindM m k w = k a w'.
Proof. intros Hm. unfold bindM. by rewrite Hm. Qed.

Lemma bindM_Throw {A B} (m : M A) (k : A -> M B) (w w' : World) (e : exn) :
  m w = (Throw e, w') -> bindM m k w = (Throw e, w').
Proof. intros Hm. unfold bindM. by rewrite Hm. Qed.

Lemma bindM_Undefined {A B} (m : M A) (k : A -> M B) (w w' : World) :
  m w = (Undefined, w') -> bindM m k w = (Undefined, w').
Proof. intros Hm. unfold bindM. by rewrite Hm. Qed.

(** ** Strings *)

Lemma append_String (c : ascii) (s t : string) :
  (String c s ++ t)%string = String c (s ++ t)%string.
Proof. reflexivity. Qed.

Lemma append_assoc (s t u : string) :
  ((s ++ t) ++ u)%string = (s ++ (t ++ u))%string.
Proof.
  induction s as [|c s IH]; [reflexivity |].
  rewrite !append_String. by rewrite IH.
Qed.

Lemma append_empty_r (s : string) : (s ++ "")%string = s.
Proof.
  induction s as [|c s IH]; [reflexivity |].
  rewrite append_String. by rewrite IH.
Qed.

Lemma contains_suffix (pre s : string) : contains s (pre ++ s).
Proof. exists pre, ""%string. by rewrite append_empty_r. Qed.

Lemma contains_middle (pre s post : string) : contains s ((pre ++ s) ++ post).
Proof. exists pre, post. by rewrite append_assoc. Qed.

(** Text read up to a terminator holds none, so reading it as a C string
    gives it back. *)
Lemma c_str_text_of (chars : list GLchar) : c_str (text_of chars) = text_of chars.
Proof.
  induction chars as [|c chars IH]; [done |].
  cbn [text_of]. destruct (decide (c = NUL)) as [|Hc]; [done |].
  cbn [c_str]. by rewrite decide_False, IH.
Qed.

Lemma c_str_append (s t : string) :
  c_str s = s -> c_str (s ++ t) = (s ++ c_str t)%string.
Proof.
  induction s as [|c s IH]; intros Hs; [done |].
  rewrite !append_String. cbn [c_str] in Hs |- *.
  destruct (decide (c = NUL)); [done |].
  injection Hs as Hs. by rewrite IH.
Qed.

(** The message of a link error: the header line, then the log text; read
    as a C string it is the same when the log text holds no terminator. *)
Lemma err_LinkError (errStr : string) :
  err (mk_LinkError errStr) = (("Shader link error:" ++ LF) ++ errStr)%string.
Proof. reflexivity. Qed.

Lemma what_LinkError (errStr : string) :
  c_str errStr = errStr ->
  what (mk_LinkError errStr) = (("Shader link error:" ++ LF) ++ errStr)%string.
Proof.
  intros Hs. unfold what. rewrite err_LinkError.
  rewrite c_str_append by reflexivity. by rewrite Hs.
Qed.

(** The message of a compile error for a stage with source text. *)
Lemma err_CompileError (codeStr errStr : string) :
  codeStr <> ""%string ->
  err (mk_CompileError codeStr errStr) =
    ((("Shader compile error:" ++ LF) ++ errStr)
       ++ (LF ++ "    -- SHADER CODE --" ++ LF) ++ codeStr)%string.
Proof.
  intros Hne. unfold mk_CompileError. rewrite decide_True by done.
  simpl. rewrite !append_assoc. reflexivity.
Qed.

(** ** The stage loop and the constructor *)

Section Construction.

Variable d : Driver.

Lemma compile_stages_app slots1 slots2 ids w :
  compile_stages d (slots1 ++ slots2) ids w =
    (ids' <- compile_stages d slots1 ids ;; compile_stages d slots2 ids')%gl w.
Proof.
  revert ids w. induction slots1 as [|[shaderType src] slots1 IH]; intros ids w.
  - reflexivity.
  - cbn [app compile_stages]. case_decide; [| apply IH].
    rewrite bindM_assoc. apply bindM_ext; intros shader w1.
    rewrite bindM_assoc. apply bindM_ext; intros _ w2.
    apply IH.
Qed.

(** One iteration on a slot that holds source text. *)
Lemma compile_stages_cons shaderType src slots ids w :
  src <> ""%string ->
  compile_stages d ((shaderType, src) :: slots) ids w =
    (let shader := on_glCreateShader d (gl_calls w) shaderType in
     compile d shader src ;;
     compile_stages d slots (ids ++ [shader]))%gl
      (log_call (CreateShader shaderType) w).
Proof. intros Hne. cbn [compile_stages]. by rewrite decide_True. Qed.

(** One iteration on an empty slot. *)
Lemma compile_stages_skip shaderType slots ids w :
  compile_stages d ((shaderType, ""%string) :: slots) ids w =
    compile_stages d slots ids w.
Proof. cbn [compile_stages]. by rewrite decide_False by naive_solver. Qed.

Lemma Shared_new_eq w :
  Shared_new d w =
    (Ok {| program := on_glCreateProgram d (gl_calls w); uniforms := ∅ |},
     log_call CreateProgram w).
Proof. reflexivity. Qed.

(** An exception of the stage loop leaves the constructor after [~Shared]
    has deleted the program. *)
Lemma Shader_new_stage_throw source w e w' :
  compile_stages d (zip shaderTypes (sources source)) []
                 (log_call CreateProgram w) = (Throw e, w') ->
  Shader_new d source w =
    (Throw e, log_call (DeleteProgram (on_glCreateProgram d (gl_calls w))) w').
Proof.
  intros Hloop. unfold Shader_new.
  rewrite (bindM_Ok _ _ _ _ _ (Shared_new_eq w)).
  apply bindM_Throw. unfold unwinding, Shader_body.
  by rewrite (bindM_Throw _ _ _ _ _ Hloop).
Qed.

End Construction.

(** C10. In the failure branch of [compile] the log buffer has the length
    the driver reported, the driver stores its characters from the first
    cell on, and the text is read back from the first cell.  The branch
    reaches its [throw] of a compile error, every access inside the buffer,
    only if the reported length is at least 1 and at least the number of
    characters stored; that is enough when the driver terminates what it
    stores; when a non-negative reported length fails the condition the
    behaviour is undefined; and a negative reported length makes the
    allocation throw before any access. *)
Theorem compile_log_buffer_bounds
    (d : Driver) (id : GLuint) (codeStr : string) (w : World) :
  compile_status d id codeStr w = GL_FALSE ->
  let len := shader_log_length d id codeStr w in
  let chars := shader_log_chars d id codeStr w in
  ((exists msg, fst (compile d id codeStr w)
                = Throw (Shader_exn (ShaderE_CompileError msg))) ->
   1 <= len /\ Z.of_nat (length chars) <= len) /\
  (1 <= len -> Z.of_nat (length chars) <= len -> chars = [] \/ NUL ∈ chars ->
   fst (compile d id codeStr w)
   = Throw (Shader_exn (mk_CompileError codeStr (text_of chars)))) /\
  (0 <= len -> ~ (1 <= len /\ Z.of_nat (length chars) <= len) ->
   fst (compile d id codeStr w) = Undefined) /\
  (len < 0 -> fst (compile d id codeStr w) = Throw std_length_error).
Proof.
  intros Hs len chars. rewrite (compile_failure _ _ _ _ Hs).
  fold len chars. split_and!; [| | | intros Hneg; by rewrite decide_True].
  - intros [msg Hmsg]. destruct (decide (len < 0)); [done |].
    destruct (store _ chars) as [buf|] eqn:Hstore; simpl in Hmsg; [| done].
    destruct (load_cstr buf) as [errStr|] eqn:Hload; [| done].
    apply store_Some in Hstore as [Hfit ->].
    apply load_cstr_nonempty in Hload.
    rewrite length_app, length_fmap, length_drop in Hload.
    rewrite length_replicate in Hfit, Hload. lia.
  - intros Hlen Hfit Hterm. rewrite decide_False by lia.
    destruct (vector_store_load (Z.to_nat len) chars) as (buf & -> & Hload);
      [lia | lia | done |].
    simpl. by rewrite Hload.
  - intros Hnonneg Hpre. rewrite decide_False by lia.
    destruct (store _ chars) as [buf|] eqn:Hstore; simpl; [| done].
    destruct (load_cstr buf) as [errStr|] eqn:Hload; [| done].
    exfalso. apply Hpre.
    apply store_Some in Hstore as [Hfit ->].
    apply load_cstr_nonempty in Hload.
    rewrite length_app, length_fmap, length_drop in Hload.
    rewrite length_replicate in Hfit, Hload. lia.
Qed.

Lemma compile_log_buffer_bounds_witness :
  compile_status (Scripted.driver talkative_compiler) 6 "bad" initial_World
  = GL_FALSE /\
  fst (compile (Scripted.driver talkative_compiler) 6 "bad" initial_World)
  = Throw (Shader_exn (mk_CompileError "bad" "oops!")).
Proof.
  split; [reflexivity |].
  apply (compile_log_buffer_bounds
           (Scripted.driver talkative_compiler) 6 "bad" initial_World).
  - reflexivity.
  - by vm_compute.
  - by vm_compute.
  - right. apply (bool_decide_unpack _). by vm_compute.
Defined.

(** C3, as amended.  When construction reaches a stage whose compile status
    is reported as failure, and the log buffer accesses of that stage stay in
    bounds (C10), construction aborts with a [ShaderE_CompileError]; its
    message is the header line, the text fetched from the driver's log
    (which may be empty), the separator line and the stage's source text, so
    it contains both the source text and the fetched text. *)
Theorem compile_error_aborts_construction
    (d : Driver) (source : ShaderProgram) (w : World)
    (pre : list (ShaderType * string)) (shaderType : ShaderType)
    (codeStr : string) (rest : list (ShaderType * string))
    (ids : list GLuint) (w0 : World) :
  reaches_stage d source w pre shaderType codeStr rest ids w0 ->
  let id := on_glCreateShader d (gl_calls w0) shaderType in
  let wc := log_call (CreateShader shaderType) w0 in
  let len := shader_log_length d id codeStr wc in
  let chars := shader_log_chars d id codeStr wc in
  compile_status d id codeStr wc = GL_FALSE ->
  1 <= len -> Z.of_nat (length chars) <= len -> chars = [] \/ NUL ∈ chars ->
  exists msg,
    fst (Shader_new d source w) = Throw (Shader_exn (ShaderE_CompileError msg)) /\
    msg = ((("Shader compile error:" ++ LF) ++ text_of chars)
             ++ (LF ++ "    -- SHADER CODE --" ++ LF) ++ codeStr)%string /\
    contains codeStr msg /\
    contains (text_of chars) msg.
Proof.
  intros (Hslots & Hcode & Hpre) id wc len chars Hs Hlen Hfit Hterm.
  exists (err (mk_CompileError codeStr (text_of chars))).
  assert (compile d id codeStr wc
          = (Throw (Shader_exn (mk_CompileError codeStr (text_of chars))),
             after_shader_log id codeStr wc)) as Hcompile.
  { rewrite (compile_failure _ _ _ _ Hs). fold len chars.
    rewrite decide_False by lia.
    destruct (vector_store_load (Z.to_nat len) chars) as (buf & -> & Hload);
      [lia | lia | done |].
    simpl. by rewrite Hload. }
  split_and!.
  - erewrite Shader_new_stage_throw; [reflexivity |].
    rewrite Hslots, compile_stages_app.
    rewrite (bindM_Ok _ _ _ _ _ Hpre).
    rewrite compile_stages_cons by done. cbv zeta.
    apply bindM_Throw. apply Hcompile.
  - by apply err_CompileError.
  - rewrite err_CompileError by done. rewrite <- append_assoc.
    apply contains_suffix.
  - rewrite err_CompileError by done. apply contains_middle.
Qed.

Lemma compile_error_aborts_construction_witness :
  exists msg,
    fst (Shader_new (Scripted.driver talkative_compiler) bad_fragment initial_World)
    = Throw (Shader_exn (ShaderE_CompileError msg)) /\
    contains "bad" msg /\ contains "oops!" msg.
Proof.
  destruct (compile_error_aborts_construction
              (Scripted.driver talkative_compiler) bad_fragment initial_World
              [(GL_VERTEX_SHADER, "void main(){}"%string);
               (GL_TESS_CONTROL_SHADER, ""%string);
               (GL_TESS_EVALUATION_SHADER, ""%string);
               (GL_GEOMETRY_SHADER, ""%string)]
              GL_FRAGMENT_SHADER "bad"%string []
              [2]
              (snd (compile_stages (Scripted.driver talkative_compiler)
                      [(GL_VERTEX_SHADER, "void main(){}"%string)] []
                      (log_call CreateProgram initial_World))))
    as (msg & Hthrow & _ & Hcode & Hdiag).
  - split_and!; [reflexivity | done | reflexivity].
  - reflexivity.
  - by vm_compute.
  - by vm_compute.
  - right. apply (bool_decide_unpack _). by vm_compute.
  - exists msg. split_and!; [exact Hthrow | exact Hcode | exact Hdiag].
Defined.

(** C3 as stated does not hold: the fragment stage fails to compile, the
    driver's log holds nothing but the terminator, and the text fetched for
    the error is the empty string. *)
Lemma compile_error_empty_diagnostic :
  ~ nonempty_diagnostic_claim
      (Scripted.driver silent_compiler) bad_fragment initial_World.
Proof.
  intros Hclaim.
  destruct (Hclaim
              [(GL_VERTEX_SHADER, "void main(){}"%string);
               (GL_TESS_CONTROL_SHADER, ""%string);
               (GL_TESS_EVALUATION_SHADER, ""%string);
               (GL_GEOMETRY_SHADER, ""%string)]
              GL_FRAGMENT_SHADER "bad"%string []
              [2]
              (snd (compile_stages (Scripted.driver silent_compiler)
                      [(GL_VERTEX_SHADER, "void main(){}"%string)] []
                      (log_call CreateProgram initial_World))))
    as (msg & diag & _ & _ & Hdiag & Hne & _).
  - split_and!; [reflexivity | done | reflexivity].
  - reflexivity.
  - apply Hne. rewrite Hdiag. reflexivity.
Qed.

(** ** Linking and cleaning up *)

Section Linking.

Variable d : Driver.

Lemma attach_all_eq program ids w :
  attach_all program ids w =
    (Ok tt, {| gl_calls := gl_calls w ++ (AttachShader program <$> ids);
               boundProgram := boundProgram w |}).
Proof.
  revert w. induction ids as [|p ids IH]; intros w.
  - simpl. rewrite app_nil_r. by destruct w.
  - cbn [attach_all]. unfold bindM, glAttachShader, call.
    rewrite IH. simpl. by rewrite <- app_assoc.
Qed.

Lemma detach_delete_all_eq program ids w :
  detach_delete_all program ids w =
    (Ok tt,
     {| gl_calls :=
          gl_calls w ++ (ids ≫= fun p => [DetachShader program p; DeleteShader p]);
        boundProgram := boundProgram w |}).
Proof.
  revert w. induction ids as [|p ids IH]; intros w.
  - simpl. rewrite app_nil_r. by destruct w.
  - cbn [detach_delete_all]. unfold bindM, glDetachShader, glDeleteShader, call.
    rewrite IH. simpl. by rewrite <- !app_assoc.
Qed.

Lemma check_link_linked program w :
  link_status d program w <> GL_FALSE ->
  check_link d program w = (Ok tt, at_program_log_length program w).
Proof.
  unfold link_status, at_program_log_length.
  intros Hs. unfold check_link, bindM; simpl.
  by rewrite decide_False.
Qed.

(** The failure branch, lines 164-171, step by step. *)
Lemma check_link_failed program w :
  link_status d program w = GL_FALSE ->
  check_link d program w =
    if decide (program_log_length d program w >= 1) then
      match store (replicate (Z.to_nat (program_log_length d program w))
                             (Some NUL))
                  (program_log_chars d program w)
              ≫= load_cstr with
      | Some errStr =>
          (Throw (Shader_exn (mk_LinkError errStr)),
           after_program_log d program w)
      | None => (Undefined, after_program_log d program w)
      end
    else (Ok tt, at_program_log program w).
Proof.
  unfold program_log_chars, after_program_log, at_program_log,
    program_log_length, link_status, at_program_log_length.
  intros Hs. unfold check_link, bindM; simpl.
  rewrite decide_True by done.
  destruct (decide (_ >= 1)); [| reflexivity].
  unfold std_vector_GLchar. rewrite decide_False by lia.
  unfold ret, glGetProgramInfoLog, bindM, ask; simpl.
  destruct (store _ _) as [buf|]; simpl; [| reflexivity].
  destruct (load_cstr buf); reflexivity.
Qed.

(** [initUniforms] throws none of the module's exceptions. *)
Lemma initUniforms_loop_no_throw program maxLength indices name table w e :
  fst (initUniforms_loop d program maxLength indices name table w) <> Throw e.
Proof.
  revert name table w. induction indices as [|i indices IH]; intros name table w.
  - done.
  - cbn [initUniforms_loop]. unfold bindM at 1.
    unfold glGetActiveUniform, bindM at 1, ask.
    destruct (on_glGetActiveUniform _ _ _ _ _) as [[size type] chars].
    unfold bindM at 1. destruct (store name chars) as [name'|]; simpl; [| done].
    unfold bindM at 1. destruct (load_cstr name') as [nameStr|]; simpl; [| done].
    apply IH.
Qed.

Lemma initUniforms_no_shader_exn s w e :
  fst (initUniforms d s w) <> Throw (Shader_exn e).
Proof.
  unfold initUniforms, bindM at 1 2; simpl.
  unfold bindM at 1, new_GLchar. case_decide; [done |]. simpl.
  unfold bindM.
  pose proof (initUniforms_loop_no_throw (program s)
    (on_glGetProgramiv d
       (gl_calls (log_call (GetProgramiv (program s) GL_ACTIVE_UNIFORMS) w))
       (program s) GL_ACTIVE_UNIFORM_MAX_LENGTH)
    (seq 0 (Z.to_nat (on_glGetProgramiv d (gl_calls w) (program s) GL_ACTIVE_UNIFORMS)))
    (replicate (Z.to_nat (on_glGetProgramiv d
       (gl_calls (log_call (GetProgramiv (program s) GL_ACTIVE_UNIFORMS) w))
       (program s) GL_ACTIVE_UNIFORM_MAX_LENGTH)) None)
    (uniforms s)
    (log_call (GetProgramiv (program s) GL_ACTIVE_UNIFORM_MAX_LENGTH)
       (log_call (GetProgramiv (program s) GL_ACTIVE_UNIFORMS) w))) as Hloop.
  destruct (initUniforms_loop _ _ _ _ _ _ _) as [[table| e' |] w']; simpl in *;
    [done | | done].
  intros [= ->]. by apply (Hloop (Shader_exn e)).
Qed.

(** The one exception [initUniforms] can leave with comes from the
    allocation of the name buffer. *)
Lemma initUniforms_throws s w e :
  fst (initUniforms d s w) = Throw e ->
  e = std_bad_alloc /\
  on_glGetProgramiv d
    (gl_calls (log_call (GetProgramiv (program s) GL_ACTIVE_UNIFORMS) w))
    (program s) GL_ACTIVE_UNIFORM_MAX_LENGTH < 0.
Proof.
  unfold initUniforms, bindM at 1 2; simpl.
  unfold bindM at 1, new_GLchar. case_decide as Hneg.
  { intros [= <-]. done. }
  simpl. unfold bindM.
  pose proof (initUniforms_loop_no_throw (program s)
    (on_glGetProgramiv d
       (gl_calls (log_call (GetProgramiv (program s) GL_ACTIVE_UNIFORMS) w))
       (program s) GL_ACTIVE_UNIFORM_MAX_LENGTH)
    (seq 0 (Z.to_nat (on_glGetProgramiv d (gl_calls w) (program s) GL_ACTIVE_UNIFORMS)))
    (replicate (Z.to_nat (on_glGetProgramiv d
       (gl_calls (log_call (GetProgramiv (program s) GL_ACTIVE_UNIFORMS) w))
       (program s) GL_ACTIVE_UNIFORM_MAX_LENGTH)) None)
    (uniforms s)
    (log_call (GetProgramiv (program s) GL_ACTIVE_UNIFORM_MAX_LENGTH)
       (log_call (GetProgramiv (program s) GL_ACTIVE_UNIFORMS) w))) as Hloop.
  destruct (initUniforms_loop _ _ _ _ _ _ _) as [[table| e' |] w']; simpl in *;
    [done | | done].
  intros [= ->]. by destruct (Hloop e).
Qed.

End Linking.

Section AfterLink.

Variable d : Driver.

Lemma unwinding_bind_Ok {A B} (m : M A) (k : A -> M B) (c : M unit) w w' a :
  m w = (Ok a, w') -> unwinding (bindM m k) c w = unwinding (k a) c w'.
Proof. intros Hm. unfold unwinding. by rewrite (bindM_Ok _ _ _ _ _ Hm). Qed.

Lemma unwinding_bind_Throw {A B} (m : M A) (k : A -> M B) (c : M unit) w w' e :
  m w = (Throw e, w') -> unwinding (bindM m k) c w = (Throw e, snd (c w')).
Proof. intros Hm. unfold unwinding. by rewrite (bindM_Throw _ _ _ _ _ Hm). Qed.

(** The constructor, once the stage loop has returned [ids] in [w0]. *)
Lemma Shader_new_linked source w ids w0 :
  compile_stages d (zip shaderTypes (sources source)) []
                 (log_call CreateProgram w) = (Ok ids, w0) ->
  let s := {| program := on_glCreateProgram d (gl_calls w); uniforms := ∅ |} in
  Shader_new d source w =
    (s' <- unwinding (after_link d s ids) (Shared_delete s) ;;
     ret {| share := s' |})%gl (at_link_status (program s) ids w0).
Proof.
  intros Hloop s. unfold Shader_new.
  rewrite (bindM_Ok _ _ _ _ _ (Shared_new_eq d w)). fold s.
  apply bindM_cong.
  unfold Shader_body. rewrite (unwinding_bind_Ok _ _ _ _ _ _ Hloop).
  erewrite unwinding_bind_Ok by apply attach_all_eq.
  erewrite unwinding_bind_Ok by reflexivity.
  unfold at_link_status. by rewrite attach_all_eq.
Qed.

Lemma finish_after_check s ids w w' :
  check_link d (program s) w = (Ok tt, w') ->
  (s' <- unwinding (after_link d s ids) (Shared_delete s) ;;
   ret {| share := s' |})%gl w = finish d s ids w'.
Proof.
  intros Hcheck. unfold finish, after_link.
  apply bindM_cong. by rewrite (unwinding_bind_Ok _ _ _ _ _ _ Hcheck).
Qed.

Lemma finish_no_shader_exn s ids w e :
  fst (finish d s ids w) <> Throw (Shader_exn e).
Proof.
  unfold finish, bindM at 1, unwinding, bindM at 1.
  rewrite detach_delete_all_eq.
  pose proof (initUniforms_no_shader_exn d s
    {| gl_calls := gl_calls w ++
         (ids ≫= fun p => [DetachShader (program s) p; DeleteShader p]);
       boundProgram := boundProgram w |} e) as Hinit.
  destruct (initUniforms d s _) as [[s'| e' |] w']; simpl in *; congruence.
Qed.

End AfterLink.

(** C2.  Take a construction whose stage loop has returned.  If the link
    status is reported as success, the rest of the constructor ([finish])
    runs.  If it is reported as failure, a [ShaderE_LinkError] is raised if
    and only if the reported log length is at least 1, and it carries the
    text fetched from the program log (the driver writing no more than the
    buffer size it is handed, terminator included): its [err] member, which
    is also what [what()] gives, is the header line followed by that text.
    With a reported length below 1 nothing is raised by the check and the
    same rest of the constructor runs as after a successful link. *)
Theorem link_error_iff_log
    (d : Driver) (source : ShaderProgram) (w : World)
    (ids : list GLuint) (w0 : World) :
  compile_stages d (zip shaderTypes (sources source)) []
                 (log_call CreateProgram w) = (Ok ids, w0) ->
  let s := {| program := on_glCreateProgram d (gl_calls w); uniforms := ∅ |} in
  let wl := at_link_status (program s) ids w0 in
  let len := program_log_length d (program s) wl in
  let chars := program_log_chars d (program s) wl in
  (link_status d (program s) wl <> GL_FALSE ->
   Shader_new d source w = finish d s ids (at_program_log_length (program s) wl)) /\
  (link_status d (program s) wl = GL_FALSE ->
   (1 <= len -> Z.of_nat (length chars) <= len /\ (chars = [] \/ NUL ∈ chars)) ->
   ((exists msg, fst (Shader_new d source w)
                 = Throw (Shader_exn (ShaderE_LinkError msg))) <-> 1 <= len) /\
   (1 <= len ->
    fst (Shader_new d source w)
    = Throw (Shader_exn (mk_LinkError (text_of chars)))) /\
   (1 <= len ->
    exists msg,
      fst (Shader_new d source w) = Throw (Shader_exn (ShaderE_LinkError msg)) /\
      msg = (("Shader link error:" ++ LF) ++ text_of chars)%string /\
      contains (text_of chars) msg /\
      what (ShaderE_LinkError msg) = msg) /\
   (len < 1 ->
    Shader_new d source w = finish d s ids (at_program_log (program s) wl))).
Proof.
  intros Hloop s wl len chars.
  rewrite (Shader_new_linked d source w ids w0 Hloop). fold s wl.
  split.
  - intros Hs. apply finish_after_check. by apply check_link_linked.
  - intros Hs Hdriver.
    assert (1 <= len ->
            check_link d (program s) wl
            = (Throw (Shader_exn (mk_LinkError (text_of chars))),
               after_program_log d (program s) wl)) as Hraise.
    { intros Hlen. rewrite (check_link_failed d _ _ Hs). fold len chars.
      rewrite decide_True by lia.
      destruct (Hdriver Hlen) as [Hfit Hterm].
      destruct (vector_store_load (Z.to_nat len) chars) as (buf & -> & Hload);
        [lia | lia | done |].
      simpl. by rewrite Hload. }
    assert (len < 1 ->
            check_link d (program s) wl = (Ok tt, at_program_log (program s) wl))
      as Hpass.
    { intros Hlen. rewrite (check_link_failed d _ _ Hs). fold len.
      by rewrite decide_False by lia. }
    assert (1 <= len ->
            fst ((s' <- unwinding (after_link d s ids) (Shared_delete s) ;;
                  ret {| share := s' |})%gl wl)
            = Throw (Shader_exn (mk_LinkError (text_of chars)))) as Hthrow.
    { intros Hlen. unfold bindM at 1, after_link.
      by rewrite (unwinding_bind_Throw _ _ _ _ _ _ (Hraise Hlen)). }
    split_and!.
    + split.
      * intros [msg Hmsg]. destruct (decide (1 <= len)) as [|Hlen]; [done |].
        rewrite (finish_after_check d s ids _ _ (Hpass ltac:(lia))) in Hmsg.
        by apply finish_no_shader_exn in Hmsg.
      * intros Hlen. eexists. rewrite (Hthrow Hlen). reflexivity.
    + exact Hthrow.
    + intros Hlen. exists (("Shader link error:" ++ LF) ++ text_of chars)%string.
      split_and!.
      * exact (Hthrow Hlen).
      * reflexivity.
      * apply contains_suffix.
      * apply (what_LinkError (text_of chars)), c_str_text_of.
    + intros Hlen. apply finish_after_check. by apply Hpass.
Qed.

Lemma link_error_iff_log_witness :
  fst (Shader_new (Scripted.driver failing_linker) vertex_only initial_World)
  = Throw (Shader_exn (mk_LinkError "link failed!")) /\
  Shader_new (Scripted.driver unexplained_link_failure) vertex_only initial_World
  = finish (Scripted.driver unexplained_link_failure)
      {| program := 1; uniforms := ∅ |} [2]
      (at_program_log 1
         (at_link_status 1 [2]
            (snd (compile_stages (Scripted.driver unexplained_link_failure)
                    (zip shaderTypes (sources vertex_only)) []
                    (log_call CreateProgram initial_World))))) /\
  Shader_new (Scripted.driver talkative_compiler) vertex_only initial_World
  = finish (Scripted.driver talkative_compiler)
      {| program := 1; uniforms := ∅ |} [2]
      (at_program_log_length 1
         (at_link_status 1 [2]
            (snd (compile_stages (Scripted.driver talkative_compiler)
                    (zip shaderTypes (sources vertex_only)) []
                    (log_call CreateProgram initial_World))))).
Proof.
  split_and!.
  - apply (link_error_iff_log (Scripted.driver failing_linker) vertex_only
             initial_World [2]
             (snd (compile_stages (Scripted.driver failing_linker)
                     (zip shaderTypes (sources vertex_only)) []
                     (log_call CreateProgram initial_World)))).
    + reflexivity.
    + reflexivity.
    + intros _. split; [by vm_compute |].
      right. apply (bool_decide_unpack _). by vm_compute.
    + by vm_compute.
  - apply (link_error_iff_log (Scripted.driver unexplained_link_failure)
             vertex_only initial_World [2]
             (snd (compile_stages (Scripted.driver unexplained_link_failure)
                     (zip shaderTypes (sources vertex_only)) []
                     (log_call CreateProgram initial_World)))).
    + reflexivity.
    + reflexivity.
    + intros Hlen. by vm_compute in Hlen.
    + by vm_compute.
  - apply (link_error_iff_log (Scripted.driver talkative_compiler)
             vertex_only initial_World [2]
             (snd (compile_stages (Scripted.driver talkative_compiler)
                     (zip shaderTypes (sources vertex_only)) []
                     (log_call CreateProgram initial_World)))).
    + reflexivity.
    + by vm_compute.
Defined.

(** With a failed link and no program log the constructor returns a shader. *)
Example unexplained_link_failure_returns :
  exists sh w',
    Shader_new (Scripted.driver unexplained_link_failure) vertex_only initial_World
    = (Ok sh, w').
Proof. by eexists _, _. Qed.

(** ** What a computation appends to the call log *)

Section Appends.

Variable P : list GLCall -> Prop.
Hypothesis P_nil : P [].
Hypothesis P_app : forall ev1 ev2, P ev1 -> P ev2 -> P (ev1 ++ ev2).

Lemma appends_ret {A} (a : A) : appends P (ret a).
Proof. intros w. exists []. by rewrite app_nil_r. Qed.

Lemma appends_throw {A} (e : exn) : appends P (@throw A e).
Proof. intros w. exists []. by rewrite app_nil_r. Qed.

Lemma appends_undefined {A} : appends P (@undefined A).
Proof. intros w. exists []. by rewrite app_nil_r. Qed.

Lemma appends_lift_buffer {A} (o : option A) : appends P (lift_buffer o).
Proof. destruct o; [apply appends_ret | apply appends_undefined]. Qed.

Lemma appends_call (c : GLCall) : P [c] -> appends P (call c).
Proof. intros Hc w. by exists [c]. Qed.

Lemma appends_ask {A} (answer : list GLCall -> A) (c : GLCall) :
  P [c] -> appends P (ask answer c).
Proof. intros Hc w. by exists [c]. Qed.

Lemma appends_bind {A B} (m : M A) (k : A -> M B) :
  appends P m -> (forall a, appends P (k a)) -> appends P (bindM m k).
Proof.
  intros Hm Hk w. destruct (Hm w) as (ev1 & Hev1 & HP1).
  unfold bindM. destruct (m w) as [[a| e |] w1]; simpl in *; [| by eauto..].
  destruct (Hk a w1) as (ev2 & Hev2 & HP2).
  exists (ev1 ++ ev2). rewrite Hev2, Hev1, app_assoc. auto.
Qed.

Lemma appends_unwinding {A} (body : M A) (cleanup : M unit) :
  appends P body -> appends P cleanup -> appends P (unwinding body cleanup).
Proof.
  intros Hb Hc w. destruct (Hb w) as (ev1 & Hev1 & HP1).
  unfold unwinding. destruct (body w) as [[a| e |] w1]; simpl in *; [by eauto | | by eauto].
  destruct (Hc w1) as (ev2 & Hev2 & HP2).
  exists (ev1 ++ ev2). rewrite Hev2, Hev1, app_assoc. auto.
Qed.

End Appends.

(** ** Which calls touch stage objects *)

Lemma quiet_nil : quiet [].
Proof. reflexivity. Qed.

Lemma stage_steps_app (ev1 ev2 : list GLCall) :
  stage_steps (ev1 ++ ev2) = stage_steps ev1 ++ stage_steps ev2.
Proof. apply omap_app. Qed.

Lemma quiet_app (ev1 ev2 : list GLCall) : quiet ev1 -> quiet ev2 -> quiet (ev1 ++ ev2).
Proof. unfold quiet. intros H1 H2. by rewrite stage_steps_app, H1, H2. Qed.

Ltac quiet_step :=
  first
    [ apply appends_ret; exact quiet_nil
    | apply appends_throw; exact quiet_nil
    | apply appends_undefined; exact quiet_nil
    | apply appends_lift_buffer; exact quiet_nil
    | apply appends_call; reflexivity
    | apply appends_ask; reflexivity
    | apply appends_bind; [exact quiet_app | | intros ?] ].

Section Quiet.

Variable d : Driver.

Lemma quiet_attach_all program ids : appends quiet (attach_all program ids).
Proof.
  induction ids as [|p ids IH]; cbn [attach_all]; [quiet_step |].
  unfold glAttachShader. by repeat quiet_step.
Qed.

Lemma quiet_detach_delete_all program ids :
  appends quiet (detach_delete_all program ids).
Proof.
  induction ids as [|p ids IH]; cbn [detach_delete_all]; [quiet_step |].
  unfold glDetachShader, glDeleteShader. by repeat quiet_step.
Qed.

Lemma quiet_check_link program : appends quiet (check_link d program).
Proof.
  unfold check_link, glGetProgramiv, glGetProgramInfoLog, std_vector_GLchar.
  repeat (repeat quiet_step; try case_decide).
Qed.

Lemma quiet_initUniforms_loop program maxLength indices name table :
  appends quiet (initUniforms_loop d program maxLength indices name table).
Proof.
  revert name table.
  induction indices as [|i indices IH]; intros name table;
    cbn [initUniforms_loop]; [quiet_step |].
  unfold glGetActiveUniform, glGetUniformLocation.
  quiet_step.
  - repeat quiet_step. destruct a as [[size type] chars]. repeat quiet_step.
  - destruct a as [[size type] name']. repeat quiet_step. apply IH.
Qed.

Lemma quiet_initUniforms s : appends quiet (initUniforms d s).
Proof.
  unfold initUniforms, glGetProgramiv, new_GLchar.
  repeat quiet_step.
  - case_decide; quiet_step.
  - apply quiet_initUniforms_loop.
Qed.

Lemma quiet_after_link s ids : appends quiet (after_link d s ids).
Proof.
  unfold after_link. quiet_step; [apply quiet_check_link |].
  quiet_step; [apply quiet_detach_delete_all | apply quiet_initUniforms].
Qed.

Lemma quiet_Shared_delete s : appends quiet (Shared_delete s).
Proof. unfold Shared_delete, glDeleteProgram. quiet_step. Qed.

(** The calls of one [compile]: the source is submitted up to its
    terminator, then compiled; the rest are queries. *)
Lemma compile_steps id codeStr w :
  exists ev,
    gl_calls (snd (compile d id codeStr w)) = gl_calls w ++ ev /\
    stage_steps ev = [Sourced (c_str codeStr); Compiled].
Proof.
  destruct (decide (compile_status d id codeStr w = GL_FALSE)) as [Hs|Hs].
  - rewrite (compile_failure _ _ _ _ Hs).
    case_decide.
    + exists [ShaderSource id (c_str codeStr); CompileShader id;
              GetShaderiv id GL_COMPILE_STATUS; GetShaderiv id GL_INFO_LOG_LENGTH].
      split; [| reflexivity]. simpl. by rewrite <- !app_assoc.
    + exists [ShaderSource id (c_str codeStr); CompileShader id;
              GetShaderiv id GL_COMPILE_STATUS; GetShaderiv id GL_INFO_LOG_LENGTH;
              GetShaderInfoLog id 1024].
      split; [| reflexivity].
      destruct (_ ≫= load_cstr); simpl; by rewrite <- !app_assoc.
  - rewrite (compile_success _ _ _ _ Hs).
    exists [ShaderSource id (c_str codeStr); CompileShader id;
            GetShaderiv id GL_COMPILE_STATUS].
    split; [| reflexivity]. simpl. by rewrite <- !app_assoc.
Qed.

(** The stage loop does the expected steps in order, up to the point
    where it is left. *)
Lemma compile_stages_steps slots ids w :
  exists ev,
    gl_calls (snd (compile_stages d slots ids w)) = gl_calls w ++ ev /\
    stage_steps ev `prefix_of` steps_of slots /\
    (forall ids', fst (compile_stages d slots ids w) = Ok ids' ->
                  stage_steps ev = steps_of slots).
Proof.
  revert ids w. induction slots as [|[shaderType src] slots IH]; intros ids w.
  - exists []. simpl. by rewrite app_nil_r.
  - destruct (decide (src = ""%string)) as [->|Hsrc].
    + rewrite compile_stages_skip.
      destruct (IH ids w) as (ev & Hev & Hpre & Hall).
      exists ev. unfold steps_of. rewrite filter_cons_False by naive_solver.
      done.
    + rewrite compile_stages_cons by done. cbv zeta.
      set (shader := on_glCreateShader d (gl_calls w) shaderType).
      set (w1 := log_call (CreateShader shaderType) w).
      destruct (compile_steps shader src w1) as (ev1 & Hev1 & Hsteps1).
      unfold steps_of. rewrite filter_cons_True by done.
      rewrite bind_cons. fold (steps_of slots). cbn [fst snd].
      unfold bindM.
      destruct (compile d shader src w1) as [[[]| e |] w2]; simpl in Hev1.
      * destruct (IH (ids ++ [shader]) w2) as (ev2 & Hev2 & Hpre2 & Hall2).
        exists (CreateShader shaderType :: ev1 ++ ev2). split_and!.
        -- rewrite Hev2, Hev1. subst w1. simpl.
           by rewrite <- !app_assoc.
        -- change (stage_steps (CreateShader shaderType :: ev1 ++ ev2))
             with (Created shaderType :: stage_steps (ev1 ++ ev2)).
           rewrite stage_steps_app, Hsteps1. simpl.
           by repeat apply prefix_cons.
        -- intros ids' Hok.
           change (stage_steps (CreateShader shaderType :: ev1 ++ ev2))
             with (Created shaderType :: stage_steps (ev1 ++ ev2)).
           rewrite stage_steps_app, Hsteps1. simpl.
           by rewrite (Hall2 ids' Hok).
      * exists (CreateShader shaderType :: ev1). split_and!.
        -- simpl. rewrite Hev1. subst w1. simpl. by rewrite <- !app_assoc.
        -- change (stage_steps (CreateShader shaderType :: ev1))
             with (Created shaderType :: stage_steps ev1).
           rewrite Hsteps1. simpl. repeat apply prefix_cons. apply prefix_nil.
        -- done.
      * exists (CreateShader shaderType :: ev1). split_and!.
        -- simpl. rewrite Hev1. subst w1. simpl. by rewrite <- !app_assoc.
        -- change (stage_steps (CreateShader shaderType :: ev1))
             with (Created shaderType :: stage_steps ev1).
           rewrite Hsteps1. simpl. repeat apply prefix_cons. apply prefix_nil.
        -- done.
Qed.

End Quiet.

Section ConstructorLog.

Variable d : Driver.

Lemma Shader_new_stage_undefined source w w' :
  compile_stages d (zip shaderTypes (sources source)) []
                 (log_call CreateProgram w) = (Undefined, w') ->
  Shader_new d source w = (Undefined, w').
Proof.
  intros Hloop. unfold Shader_new.
  rewrite (bindM_Ok _ _ _ _ _ (Shared_new_eq d w)).
  apply bindM_Undefined. unfold unwinding, Shader_body.
  by rewrite (bindM_Undefined _ _ _ _ Hloop).
Qed.

(** The log of a construction: the program is created, the stage loop
    runs, and whatever follows leaves stage objects alone as far as
    creating, sourcing and compiling go. *)
Lemma Shader_new_calls source w :
  exists ev ev',
    gl_calls (snd (Shader_new d source w))
    = gl_calls w ++ [CreateProgram] ++ ev ++ ev' /\
    gl_calls (snd (compile_stages d (zip shaderTypes (sources source)) []
                     (log_call CreateProgram w)))
    = gl_calls (log_call CreateProgram w) ++ ev /\
    quiet ev'.
Proof.
  destruct (compile_stages_steps d (zip shaderTypes (sources source)) []
              (log_call CreateProgram w)) as (ev & Hev & _).
  exists ev.
  destruct (compile_stages d _ [] _) as [[ids| e |] w0] eqn:Hloop;
    simpl in Hev.
  - rewrite (Shader_new_linked d source w ids w0 Hloop). cbv zeta.
    set (s := {| program := on_glCreateProgram d (gl_calls w); uniforms := ∅ |}).
    destruct (quiet_attach_all (program s) ids w0) as (ev1 & Hev1 & Hq1).
    assert (appends quiet
              (s' <- unwinding (after_link d s ids) (Shared_delete s) ;;
               ret {| share := s' |})%gl) as Hrest.
    { quiet_step; [| quiet_step].
      apply appends_unwinding;
        [exact quiet_app | apply quiet_after_link | apply quiet_Shared_delete]. }
    destruct (Hrest (at_link_status (program s) ids w0)) as (ev2 & Hev2 & Hq2).
    exists (ev1 ++ [LinkProgram (program s)] ++ ev2). split_and!.
    + rewrite Hev2. unfold at_link_status.
      rewrite gl_calls_log_call, Hev1, Hev.
      by rewrite <- !app_assoc.
    + done.
    + apply quiet_app; [done |]. by apply quiet_app.
  - rewrite (Shader_new_stage_throw d source w e w0 Hloop).
    exists [DeleteProgram (on_glCreateProgram d (gl_calls w))]. split_and!.
    + simpl. rewrite Hev. simpl. by rewrite <- !app_assoc.
    + done.
    + reflexivity.
  - rewrite (Shader_new_stage_undefined source w w0 Hloop).
    exists []. split_and!.
    + simpl. rewrite Hev. simpl. by rewrite app_nil_r, <- !app_assoc.
    + done.
    + reflexivity.
Qed.

End ConstructorLog.

(** C8.  The stage-object steps of a construction are the expected ones, in
    the fixed order vertex, tessellation control, tessellation evaluation,
    geometry, fragment: for every slot that holds source text a stage object
    is created, sourced and compiled, and nothing is done for an empty slot.
    The steps are a prefix of that list when a stage fails, and the whole
    list whenever the stage loop returns, in particular whenever construction
    succeeds. *)
Theorem stages_in_fixed_order (d : Driver) (source : ShaderProgram) (w : World) :
  let r := Shader_new d source w in
  let steps := stage_steps (new_calls w (snd r)) in
  steps `prefix_of` planned_steps source /\
  (forall ids w0,
     compile_stages d (zip shaderTypes (sources source)) []
                    (log_call CreateProgram w) = (Ok ids, w0) ->
     steps = planned_steps source) /\
  (forall sh, fst r = Ok sh -> steps = planned_steps source).
Proof.
  intros r steps.
  destruct (Shader_new_calls d source w) as (ev & ev' & Hcalls & Hev & Hq).
  destruct (compile_stages_steps d (zip shaderTypes (sources source)) []
              (log_call CreateProgram w)) as (ev0 & Hev0 & Hpre & Hall).
  assert (ev0 = ev) as -> by (rewrite Hev in Hev0; by apply app_inv_head in Hev0).
  assert (steps = stage_steps ev) as Hsteps.
  { subst steps r. unfold new_calls. rewrite Hcalls, drop_app_length.
    rewrite !stage_steps_app, Hq. simpl. by rewrite app_nil_r. }
  assert (forall ids w0,
            compile_stages d (zip shaderTypes (sources source)) []
                           (log_call CreateProgram w) = (Ok ids, w0) ->
            steps = planned_steps source) as Hloop.
  { intros ids w0 Hok. rewrite Hsteps. apply (Hall ids). by rewrite Hok. }
  split_and!.
  - rewrite Hsteps. exact Hpre.
  - exact Hloop.
  - intros sh Hsh.
    destruct (compile_stages d (zip shaderTypes (sources source)) []
                (log_call CreateProgram w)) as [[ids| e |] w0] eqn:Hl.
    + by eapply Hloop.
    + subst r. by rewrite (Shader_new_stage_throw d source w e w0 Hl) in Hsh.
    + subst r. by rewrite (Shader_new_stage_undefined d source w w0 Hl) in Hsh.
Qed.

Lemma stages_in_fixed_order_witness :
  stage_steps
    (new_calls initial_World
       (snd (Shader_new (Scripted.driver talkative_compiler) vertex_only
               initial_World)))
  = [Created GL_VERTEX_SHADER; Sourced "void main(){}"; Compiled].
Proof.
  apply (proj1 (proj2 (stages_in_fixed_order
                         (Scripted.driver talkative_compiler) vertex_only
                         initial_World))
           [2]
           (snd (compile_stages (Scripted.driver talkative_compiler)
                   (zip shaderTypes (sources vertex_only)) []
                   (log_call CreateProgram initial_World)))).
  reflexivity.
Defined.

(** ** Cleaning up the stage objects *)

Section Cleanup.

Variable d : Driver.

(** When the link check lets the constructor pass, every identifier in
    [ids] is detached and deleted next. *)
Lemma cleanup_after_check s ids w w' :
  check_link d (program s) w = (Ok tt, w') ->
  exists ev,
    gl_calls (snd (after_link d s ids w))
    = gl_calls w'
        ++ (ids ≫= fun p => [DetachShader (program s) p; DeleteShader p])
        ++ ev.
Proof.
  intros Hcheck. unfold after_link.
  rewrite (bindM_Ok _ _ _ _ _ Hcheck).
  erewrite bindM_Ok by apply detach_delete_all_eq.
  destruct (quiet_initUniforms d s
              {| gl_calls := gl_calls w' ++
                   (ids ≫= fun p => [DetachShader (program s) p; DeleteShader p]);
                 boundProgram := boundProgram w' |}) as (ev & Hev & _).
  exists ev. rewrite Hev. simpl. by rewrite <- app_assoc.
Qed.

(** When the link check throws, the loop of lines 174-178 is not run. *)
Lemma no_cleanup_after_throw s ids w w' e :
  check_link d (program s) w = (Throw e, w') ->
  after_link d s ids w = (Throw e, w').
Proof. intros Hcheck. unfold after_link. by apply bindM_Throw. Qed.

End Cleanup.

(** C1, on the code.  A vertex stage that compiles, a link that fails and a
    program log of 12 characters: the constructor attaches stage 2 to
    program 1, raises the link error from inside the status check and leaves
    through [~Shared]; stage 2 is neither detached nor deleted. *)
Theorem link_failure_skips_cleanup :
  let r := Shader_new (Scripted.driver failing_linker) vertex_only initial_World in
  fst r = Throw (Shader_exn (mk_LinkError "link failed!")) /\
  gl_calls (snd r)
  = [CreateProgram;
     CreateShader GL_VERTEX_SHADER; ShaderSource 2 "void main(){}";
     CompileShader 2; GetShaderiv 2 GL_COMPILE_STATUS;
     AttachShader 1 2; LinkProgram 1;
     GetProgramiv 1 GL_LINK_STATUS; GetProgramiv 1 GL_INFO_LOG_LENGTH;
     GetProgramInfoLog 1 13;
     DeleteProgram 1] /\
  AttachShader 1 2 ∈ gl_calls (snd r) /\
  (DetachShader 1 2 ∉ gl_calls (snd r)) /\
  (DeleteShader 2 ∉ gl_calls (snd r)).
Proof.
  assert (gl_calls
            (snd (Shader_new (Scripted.driver failing_linker) vertex_only
                    initial_World))
          = [CreateProgram;
             CreateShader GL_VERTEX_SHADER; ShaderSource 2 "void main(){}";
             CompileShader 2; GetShaderiv 2 GL_COMPILE_STATUS;
             AttachShader 1 2; LinkProgram 1;
             GetProgramiv 1 GL_LINK_STATUS; GetProgramiv 1 GL_INFO_LOG_LENGTH;
             GetProgramInfoLog 1 13;
             DeleteProgram 1]) as Hcalls by reflexivity.
  cbv zeta. rewrite Hcalls. split_and!.
  - reflexivity.
  - reflexivity.
  - set_solver.
  - intros Hin. repeat (apply elem_of_cons in Hin as [Heq|Hin]; [discriminate |]).
    by apply elem_of_nil in Hin.
  - intros Hin. repeat (apply elem_of_cons in Hin as [Heq|Hin]; [discriminate |]).
    by apply elem_of_nil in Hin.
Qed.

(** ** Uniform introspection *)

Section Tables.

Variable loc : string -> GLint.

Lemma table_of_cons u us table :
  table_of loc (u :: us) table
  = table_of loc us (<[u.1.1 := UniformData.mk u.1.2 u.2 (loc u.1.1)]> table).
Proof. reflexivity. Qed.

Lemma table_of_app us1 us2 table :
  table_of loc (us1 ++ us2) table = table_of loc us2 (table_of loc us1 table).
Proof. apply foldl_app. Qed.

Lemma table_of_lookup_other us table (name : string) :
  name ∉ us.*1.*1 -> table_of loc us table !! name = table !! name.
Proof.
  revert table. induction us as [|u us IH]; intros table Hnot; [done |].
  rewrite table_of_cons. rewrite !fmap_cons in Hnot.
  apply not_elem_of_cons in Hnot as [Hne Hnot].
  rewrite IH by done. by rewrite lookup_insert_ne.
Qed.

(** Last write wins. *)
Lemma table_of_lookup_last us1 us2 table (name : string) size type :
  name ∉ us2.*1.*1 ->
  table_of loc (us1 ++ (name, size, type) :: us2) table !! name
  = Some (UniformData.mk size type (loc name)).
Proof.
  intros Hnot. rewrite table_of_app, table_of_cons.
  rewrite table_of_lookup_other by done. simpl. by rewrite lookup_insert_eq.
Qed.

Lemma table_of_size us (table : gmap string UniformData.t) :
  NoDup (us.*1.*1) ->
  (forall name : string, name ∈ us.*1.*1 -> table !! name = None) ->
  size (table_of loc us table) = (size table + length us)%nat.
Proof.
  revert table. induction us as [|u us IH]; intros table Hnd Hfresh.
  - simpl. lia.
  - rewrite table_of_cons. rewrite !fmap_cons in Hnd, Hfresh.
    apply NoDup_cons in Hnd as [Hu Hnd].
    rewrite IH; [| done |].
    + rewrite map_size_insert_None; [simpl; lia |].
      apply Hfresh. apply elem_of_cons. by left.
    + intros name Hin.
      rewrite lookup_insert_ne by (intros Heq; apply Hu; by rewrite Heq).
      apply Hfresh. apply elem_of_cons. by right.
Qed.

End Tables.

Lemma log_calls_nil (w : World) : log_calls [] w = w.
Proof. unfold log_calls. rewrite app_nil_r. by destruct w. Qed.

Lemma log_calls_log_calls (cs1 cs2 : list GLCall) (w : World) :
  log_calls cs2 (log_calls cs1 w) = log_calls (cs1 ++ cs2) w.
Proof. unfold log_calls; simpl. by rewrite app_assoc. Qed.

Lemma log_call_log_calls (c : GLCall) (w : World) : log_call c w = log_calls [c] w.
Proof. reflexivity. Qed.

Section Introspection.

Variables (d : Driver) (prog : GLuint) (maxLength : GLint).
Variables (us : list (string * GLint * GLenum)) (loc : string -> GLint).

Lemma glGetActiveUniform_eq i (name : buffer) w size type chars :
  on_glGetActiveUniform d (gl_calls w) prog i maxLength = (size, type, chars) ->
  (length chars <= length name)%nat ->
  glGetActiveUniform d prog i maxLength name w
  = (Ok (size, type, (Some <$> chars) ++ drop (length chars) name),
     log_call (GetActiveUniform prog i maxLength) w).
Proof.
  intros Hanswer Hfit. unfold glGetActiveUniform, bindM, ask. simpl.
  rewrite Hanswer. by rewrite (store_fits _ _ Hfit).
Qed.

(** The loop over the uniforms [rest], which are those of [us] from index
    [k] on. *)
Lemma initUniforms_loop_eq rest k (name : buffer) table w :
  reports_uniforms d prog maxLength us loc ->
  (forall j u, rest !! j = Some u -> us !! (k + j)%nat = Some u) ->
  length name = Z.to_nat maxLength ->
  initUniforms_loop d prog maxLength (seq k (length rest)) name table w
  = (Ok (table_of loc rest table),
     log_calls (uniform_calls prog maxLength k rest) w).
Proof.
  intros (Hmax & _ & _ & Hactive & Hloc).
  revert k name table w.
  induction rest as [|[[uname usize] utype] rest IH];
    intros k name table w Hrest Hname.
  - simpl. by rewrite log_calls_nil.
  - cbn [length seq initUniforms_loop uniform_calls].
    destruct (Hactive (gl_calls w) k uname usize utype)
      as (chars & Hanswer & Hlen & Hterm & Htext).
    { rewrite <- (Hrest 0%nat (uname, usize, utype) eq_refl). f_equal. lia. }
    assert (length chars <= length name)%nat as Hfit by lia.
    rewrite (bindM_Ok _ _ _ _ _ (glGetActiveUniform_eq _ _ _ _ _ _ Hanswer Hfit)).
    rewrite load_cstr_terminated by done. rewrite Htext.
    unfold lift_buffer.
    erewrite bindM_Ok by reflexivity.
    unfold glGetUniformLocation.
    erewrite bindM_Ok by reflexivity.
    rewrite Hloc, IH.
    + rewrite table_of_cons. f_equal. cbn [fst snd].
      by rewrite !log_call_log_calls, !log_calls_log_calls.
    + intros j u Hj. rewrite <- (Hrest (S j) u Hj). f_equal. lia.
    + rewrite length_app, length_fmap, length_drop. lia.
Qed.

Lemma initUniforms_eq s w :
  reports_uniforms d prog maxLength us loc ->
  prog = program s ->
  initUniforms d s w
  = (Ok {| program := prog;
           uniforms := table_of loc us (uniforms s) |},
     log_calls (introspection_calls prog maxLength us) w).
Proof.
  intros Hreported Hprogram.
  pose proof Hreported as (Hmax & Hcount & Hmaxlen & _).
  unfold initUniforms, glGetProgramiv. rewrite <- Hprogram.
  erewrite bindM_Ok by reflexivity. rewrite Hcount.
  erewrite bindM_Ok by reflexivity. rewrite Hmaxlen.
  unfold new_GLchar. rewrite decide_False by lia.
  erewrite bindM_Ok by reflexivity.
  rewrite Nat2Z.id.
  rewrite (bindM_Ok _ _ _ _ _
             (initUniforms_loop_eq us 0 _ (uniforms s) _ Hreported
                (fun j u H => H) (length_replicate _ _))).
  unfold ret. f_equal.
  by rewrite !log_call_log_calls, !log_calls_log_calls.
Qed.

End Introspection.

(** C7, as amended.  [initUniforms] raises none of the module's exceptions;
    the one exception it can leave with is the failed allocation of the name
    buffer, when the driver reports a negative name bound.  When the driver
    reports the active uniforms [us] for the program, it returns normally
    after these queries, in this order: the count, the name bound, and for
    each index [0 .. count-1] the metadata by index and then the location by
    the name just fetched.  The table receives one entry per uniform under
    its name, a later entry of the same name replacing an earlier one; so
    with distinct names and an empty table to start from (as in the
    constructor) it ends with exactly as many entries as there are active
    uniforms. *)
Theorem initUniforms_introspects (d : Driver) (s : Shared) (w : World) :
  (forall e, fst (initUniforms d s w) <> Throw (Shader_exn e)) /\
  (forall e, fst (initUniforms d s w) = Throw e ->
             e = std_bad_alloc /\ name_bound d s w < 0) /\
  (forall maxLength us loc,
     reports_uniforms d (program s) maxLength us loc ->
     exists s',
       initUniforms d s w
       = (Ok s', log_calls (introspection_calls (program s) maxLength us) w) /\
       program s' = program s /\
       uniforms s' = table_of loc us (uniforms s) /\
       (forall us1 (name : string) size type us2,
          us = us1 ++ (name, size, type) :: us2 ->
          name ∉ us2.*1.*1 ->
          uniforms s' !! name = Some (UniformData.mk size type (loc name))) /\
       (uniforms s = ∅ -> NoDup (us.*1.*1) -> size (uniforms s') = length us)).
Proof.
  split; [intros e; apply initUniforms_no_shader_exn |].
  split; [intros e; apply initUniforms_throws |].
  intros maxLength us loc Hreported.
  exists {| program := program s; uniforms := table_of loc us (uniforms s) |}.
  split_and!.
  - by apply initUniforms_eq.
  - reflexivity.
  - reflexivity.
  - intros us1 name size type us2 -> Hlast. simpl.
    by apply table_of_lookup_last.
  - intros Hempty Hnd. simpl. rewrite table_of_size; [| done |].
    + rewrite Hempty, map_size_empty. lia.
    + intros name _. rewrite Hempty. apply lookup_empty.
Qed.

(** C7 as stated does not hold: a driver that reports a name bound of -1
    makes the allocation of the name buffer throw, and [initUniforms] does
    not return. *)
Lemma introspection_can_fail :
  ~ introspection_never_fails negative_bound_driver
      {| program := 1; uniforms := ∅ |} initial_World.
Proof. intros (s' & w' & Hok). discriminate Hok. Qed.

Lemma initUniforms_introspects_witness :
  exists s',
    fst (initUniforms (Scripted.driver two_uniforms)
           {| program := 1; uniforms := ∅ |} initial_World) = Ok s' /\
    size (uniforms s') = 2%nat /\
    uniforms s' !! "u_color"%string = Some (UniformData.mk 1 35666 0).
Proof.
  destruct (proj2 (proj2 (initUniforms_introspects
                            (Scripted.driver two_uniforms)
                            {| program := 1; uniforms := ∅ |} initial_World))
              8
              [("u_color"%string, 1, 35666); ("u_mvp"%string, 1, 35676)]
              (Scripted.location_of (Scripted.active two_uniforms)))
    as (s' & Heq & _ & _ & Hlast & Hsize).
  - split_and!.
    + lia.
    + reflexivity.
    + reflexivity.
    + intros h [|[|i]] name size type Hi; simplify_eq/=.
      * eexists. split; [reflexivity |]. split_and!.
        -- by vm_compute.
        -- apply (bool_decide_unpack _). by vm_compute.
        -- reflexivity.
      * eexists. split; [reflexivity |]. split_and!.
        -- by vm_compute.
        -- apply (bool_decide_unpack _). by vm_compute.
        -- reflexivity.
    + reflexivity.
  - exists s'. split_and!.
    + by rewrite Heq.
    + apply Hsize; [reflexivity |]. apply (bool_decide_unpack _). by vm_compute.
    + apply (Hlast [] "u_color"%string 1 35666 [("u_mvp"%string, 1, 35676)]);
        [reflexivity |].
      apply (bool_decide_unpack _). by vm_compute.
Defined.


(** ** What a computation does to the world, and what it throws *)

Lemma emits_ret {A} (Q : GLCall -> bool) (a : A) : emits Q (ret a).
Proof. intros w. exists []. by rewrite log_calls_nil. Qed.

Lemma emits_throw {A} (Q : GLCall -> bool) (e : exn) : emits Q (@throw A e).
Proof. intros w. exists []. by rewrite log_calls_nil. Qed.

Lemma emits_undefined {A} (Q : GLCall -> bool) : emits Q (@undefined A).
Proof. intros w. exists []. by rewrite log_calls_nil. Qed.

Lemma emits_lift_buffer {A} (Q : GLCall -> bool) (o : option A) :
  emits Q (lift_buffer o).
Proof. destruct o; [apply emits_ret | apply emits_undefined]. Qed.

Lemma emits_call (Q : GLCall -> bool) (c : GLCall) : Q c = true -> emits Q (call c).
Proof. intros Hc w. exists [c]. simpl. by rewrite Hc. Qed.

Lemma emits_ask {A} (Q : GLCall -> bool) (answer : list GLCall -> A) (c : GLCall) :
  Q c = true -> emits Q (ask answer c).
Proof. intros Hc w. exists [c]. simpl. by rewrite Hc. Qed.

Lemma emits_bind {A B} (Q : GLCall -> bool) (m : M A) (k : A -> M B) :
  emits Q m -> (forall a, emits Q (k a)) -> emits Q (bindM m k).
Proof.
  intros Hm Hk w. destruct (Hm w) as (ev1 & Hev1 & HQ1).
  unfold bindM. destruct (m w) as [[a| e |] w1]; simpl in *; [| by eauto..].
  destruct (Hk a w1) as (ev2 & Hev2 & HQ2).
  exists (ev1 ++ ev2). rewrite Hev2, Hev1, log_calls_log_calls, forallb_app.
  by rewrite HQ1, HQ2.
Qed.

Lemma emits_unwinding {A} (Q : GLCall -> bool) (body : M A) (cleanup : M unit) :
  emits Q body -> emits Q cleanup -> emits Q (unwinding body cleanup).
Proof.
  intros Hb Hc w. destruct (Hb w) as (ev1 & Hev1 & HQ1).
  unfold unwinding.
  destruct (body w) as [[a| e |] w1]; simpl in *; [by eauto | | by eauto].
  destruct (Hc w1) as (ev2 & Hev2 & HQ2).
  exists (ev1 ++ ev2). rewrite Hev2, Hev1, log_calls_log_calls, forallb_app.
  by rewrite HQ1, HQ2.
Qed.

Lemma emits_weaken {A} (Q Q' : GLCall -> bool) (m : M A) :
  (forall c, Q c = true -> Q' c = true) -> emits Q m -> emits Q' m.
Proof.
  intros HQ Hm w. destruct (Hm w) as (ev & Hev & Hall).
  exists ev. split; [done |].
  apply forallb_forall. intros c Hc.
  apply HQ. by eapply forallb_forall in Hall.
Qed.

Lemma raises_ret {A} (E : exn -> Prop) (a : A) : raises E (ret a).
Proof. by intros w e. Qed.

Lemma raises_throw {A} (E : exn -> Prop) (e : exn) : E e -> raises E (@throw A e).
Proof. intros He w e' [= <-]. exact He. Qed.

Lemma raises_undefined {A} (E : exn -> Prop) : raises E (@undefined A).
Proof. by intros w e. Qed.

Lemma raises_lift_buffer {A} (E : exn -> Prop) (o : option A) :
  raises E (lift_buffer o).
Proof. destruct o; [apply raises_ret | apply raises_undefined]. Qed.

Lemma raises_call (E : exn -> Prop) (c : GLCall) : raises E (call c).
Proof. by intros w e. Qed.

Lemma raises_ask {A} (E : exn -> Prop) (answer : list GLCall -> A) (c : GLCall) :
  raises E (ask answer c).
Proof. by intros w e. Qed.

Lemma raises_bind {A B} (E : exn -> Prop) (m : M A) (k : A -> M B) :
  raises E m -> (forall a, raises E (k a)) -> raises E (bindM m k).
Proof.
  intros Hm Hk w e. unfold bindM.
  pose proof (Hm w) as Hmw.
  destruct (m w) as [[a| e' |] w1]; simpl in *.
  - apply Hk.
  - intros [= <-]. by apply Hmw.
  - done.
Qed.

Lemma raises_unwinding {A} (E : exn -> Prop) (body : M A) (cleanup : M unit) :
  raises E body -> raises E (unwinding body cleanup).
Proof.
  intros Hb w e. unfold unwinding. pose proof (Hb w) as Hbw.
  destruct (body w) as [[a| e' |] w1]; simpl in *; [done | | done].
  intros [= <-]. by apply Hbw.
Qed.

Ltac emits_step :=
  first
    [ apply emits_ret
    | apply emits_throw
    | apply emits_undefined
    | apply emits_lift_buffer
    | apply emits_call; reflexivity
    | apply emits_ask; reflexivity
    | apply emits_bind; [| intros ?] ].

Ltac raises_step :=
  first
    [ apply raises_ret
    | apply raises_undefined
    | apply raises_lift_buffer
    | apply raises_call
    | apply raises_ask
    | apply raises_bind; [| intros ?] ].

Section Effects.

Variable d : Driver.

Lemma emits_compile id codeStr : emits stage_call (compile d id codeStr).
Proof.
  unfold compile, glShaderSource, glCompileShader, glGetShaderiv,
    glGetShaderInfoLog, std_vector_GLchar.
  repeat (repeat emits_step; try case_decide).
Qed.

Lemma emits_compile_stages slots ids : emits stage_call (compile_stages d slots ids).
Proof.
  revert ids. induction slots as [|[shaderType src] slots IH]; intros ids;
    cbn [compile_stages]; [emits_step |].
  case_decide; [| apply IH].
  unfold glCreateShader. emits_step; [emits_step |].
  emits_step; [apply emits_compile | apply IH].
Qed.

Lemma emits_attach_all program ids : emits link_call (attach_all program ids).
Proof.
  induction ids as [|p ids IH]; cbn [attach_all]; [emits_step |].
  unfold glAttachShader. by repeat emits_step.
Qed.

Lemma emits_detach_delete_all program ids :
  emits release_call (detach_delete_all program ids).
Proof.
  induction ids as [|p ids IH]; cbn [detach_delete_all]; [emits_step |].
  unfold glDetachShader, glDeleteShader. by repeat emits_step.
Qed.

Lemma emits_check_link program : emits program_query (check_link d program).
Proof.
  unfold check_link, glGetProgramiv, glGetProgramInfoLog, std_vector_GLchar.
  repeat (repeat emits_step; try case_decide).
Qed.

Lemma emits_initUniforms_loop program maxLength indices name table :
  emits program_query (initUniforms_loop d program maxLength indices name table).
Proof.
  revert name table.
  induction indices as [|i indices IH]; intros name table;
    cbn [initUniforms_loop]; [emits_step |].
  unfold glGetActiveUniform, glGetUniformLocation.
  emits_step.
  - repeat emits_step. destruct a as [[size type] chars]. repeat emits_step.
  - destruct a as [[size type] name']. repeat emits_step. apply IH.
Qed.

Lemma emits_initUniforms s : emits program_query (initUniforms d s).
Proof.
  unfold initUniforms, glGetProgramiv, new_GLchar.
  repeat emits_step.
  - case_decide; emits_step.
  - apply emits_initUniforms_loop.
Qed.

Lemma emits_Shader_body s source : emits body_call (Shader_body d s source).
Proof.
  unfold Shader_body, after_link, glLinkProgram.
  emits_step.
  { eapply emits_weaken; [| apply emits_compile_stages].
    intros c Hc. unfold body_call. by rewrite Hc. }
  emits_step.
  { eapply emits_weaken; [| apply emits_attach_all].
    intros c Hc. unfold body_call. rewrite Hc. by rewrite orb_true_r. }
  emits_step; [emits_step |].
  emits_step.
  { eapply emits_weaken; [| apply emits_check_link].
    intros c Hc. unfold body_call. rewrite Hc. by rewrite !orb_true_r. }
  emits_step.
  { eapply emits_weaken; [| apply emits_detach_delete_all].
    intros c Hc. unfold body_call. rewrite Hc. by rewrite !orb_true_r. }
  eapply emits_weaken; [| apply emits_initUniforms].
  intros c Hc. unfold body_call. rewrite Hc. by rewrite !orb_true_r.
Qed.

Lemma body_call_not_activation c : body_call c = true -> not_activation c = true.
Proof. by destruct c. Qed.

Lemma emits_Shader_new source : emits not_activation (Shader_new d source).
Proof.
  unfold Shader_new, Shared_new, glCreateProgram.
  emits_step; [by repeat emits_step |].
  emits_step; [| emits_step].
  apply emits_unwinding.
  - eapply emits_weaken; [apply body_call_not_activation | apply emits_Shader_body].
  - unfold Shared_delete, glDeleteProgram. emits_step.
Qed.

(** What each part of the constructor can throw. *)

Lemma raises_compile id codeStr :
  raises (fun e => (exists errStr, e = Shader_exn (mk_CompileError codeStr errStr))
                   \/ e = std_length_error)
         (compile d id codeStr).
Proof.
  unfold compile, glShaderSource, glCompileShader, glGetShaderiv,
    glGetShaderInfoLog, std_vector_GLchar.
  repeat (repeat raises_step; try case_decide);
    apply raises_throw; first [by right | left; by eexists].
Qed.

Lemma raises_compile_stages slots ids :
  raises (fun e => (exists codeStr errStr,
                      codeStr ∈ slots.*2 /\ codeStr <> ""%string /\
                      e = Shader_exn (mk_CompileError codeStr errStr))
                   \/ e = std_length_error)
         (compile_stages d slots ids).
Proof.
  revert ids. induction slots as [|[shaderType src] slots IH]; intros ids;
    cbn [compile_stages]; [raises_step |].
  assert (forall ids', raises
            (fun e => (exists codeStr errStr,
                         codeStr ∈ ((shaderType, src) :: slots).*2 /\
                         codeStr <> ""%string /\
                         e = Shader_exn (mk_CompileError codeStr errStr))
                      \/ e = std_length_error)
            (compile_stages d slots ids')) as Hrest.
  { intros ids' w e He. destruct (IH ids' w e He) as [(c & errStr & Hin & Hne & ->) | ->];
      [left | by right].
    exists c, errStr. split_and!; [| done..].
    rewrite fmap_cons. apply elem_of_cons. by right. }
  case_decide; [| apply Hrest].
  unfold glCreateShader. raises_step; [raises_step |].
  raises_step; [| apply Hrest].
  intros w e He. destruct (raises_compile _ _ w e He) as [[errStr ->] | ->];
    [left | by right].
  exists src, errStr. split_and!; [| done..].
  rewrite fmap_cons. apply elem_of_cons. by left.
Qed.

Lemma raises_attach_all program ids : raises (fun _ => False) (attach_all program ids).
Proof.
  induction ids as [|p ids IH]; cbn [attach_all]; [raises_step |].
  unfold glAttachShader. by repeat raises_step.
Qed.

Lemma raises_detach_delete_all program ids :
  raises (fun _ => False) (detach_delete_all program ids).
Proof.
  induction ids as [|p ids IH]; cbn [detach_delete_all]; [raises_step |].
  unfold glDetachShader, glDeleteShader. by repeat raises_step.
Qed.

Lemma raises_check_link program :
  raises (fun e => exists errStr, e = Shader_exn (mk_LinkError errStr))
         (check_link d program).
Proof.
  unfold check_link, glGetProgramiv, glGetProgramInfoLog, std_vector_GLchar.
  repeat (repeat raises_step; try case_decide);
    first [lia | apply raises_throw; by eexists].
Qed.

Lemma raises_initUniforms s :
  raises (fun e => e = std_bad_alloc) (initUniforms d s).
Proof.
  unfold initUniforms, glGetProgramiv, new_GLchar.
  raises_step; [raises_step |]. raises_step; [raises_step |].
  raises_step.
  { case_decide; [by apply raises_throw | raises_step]. }
  raises_step; [| raises_step].
  intros w e He. by apply initUniforms_loop_no_throw in He.
Qed.

Lemma raises_weaken {A} (E E' : exn -> Prop) (m : M A) :
  (forall e, E e -> E' e) -> raises E m -> raises E' m.
Proof. intros HE Hm w e He. apply HE. by eapply Hm. Qed.

Lemma raises_Shader_new source : raises (construction_exn source) (Shader_new d source).
Proof.
  unfold Shader_new, Shared_new, glCreateProgram.
  raises_step; [by repeat raises_step |].
  raises_step; [| raises_step].
  apply raises_unwinding.
  unfold Shader_body, after_link, glLinkProgram.
  raises_step.
  { eapply raises_weaken; [| apply raises_compile_stages].
    intros e [(c & errStr & Hin & Hne & ->)| ->].
    - left. exists c, errStr. split_and!; [| done..].
      rewrite snd_zip in Hin; [done |]. simpl. lia.
    - right. right. by left. }
  raises_step.
  { eapply raises_weaken; [| apply raises_attach_all]. by intros e []. }
  raises_step; [raises_step |].
  raises_step.
  { eapply raises_weaken; [| apply raises_check_link].
    intros e [errStr ->]. right. left. by eexists. }
  raises_step.
  { eapply raises_weaken; [| apply raises_detach_delete_all]. by intros e []. }
  eapply raises_weaken; [| apply raises_initUniforms].
  intros e ->. by repeat right.
Qed.

End Effects.

(** ** The constructor as a whole *)

Lemma new_calls_log_calls (ev : list GLCall) (w : World) :
  new_calls w (log_calls ev w) = ev.
Proof. unfold new_calls, log_calls; simpl. apply drop_app_length. Qed.

Lemma boundProgram_log_calls (ev : list GLCall) (w : World) :
  boundProgram (log_calls ev w) = boundProgram w.
Proof. reflexivity. Qed.

Lemma log_calls_inj (ev ev' : list GLCall) (w : World) :
  log_calls ev w = log_calls ev' w -> ev = ev'.
Proof. unfold log_calls. intros [= H]. by apply app_inv_head in H. Qed.

Lemma steps_of_app slots1 slots2 :
  steps_of (slots1 ++ slots2) = steps_of slots1 ++ steps_of slots2.
Proof. unfold steps_of. by rewrite filter_app, bind_app. Qed.

Lemma forallb_fmap_true {A} (Q : GLCall -> bool) (f : A -> GLCall) (l : list A) :
  (forall a, Q (f a) = true) -> forallb Q (f <$> l) = true.
Proof.
  intros Hf. induction l as [|a l IH]; [done |].
  rewrite fmap_cons. simpl. by rewrite Hf, IH.
Qed.

Section Whole.

Variable d : Driver.

(** The three ways out of the constructor. *)
Lemma Shader_new_cases source w :
  let s := {| program := on_glCreateProgram d (gl_calls w); uniforms := ∅ |} in
  Shader_new d source w =
    match Shader_body d s source (log_call CreateProgram w) with
    | (Ok s', w') => (Ok {| share := s' |}, w')
    | (Throw e, w') => (Throw e, log_call (DeleteProgram (program s)) w')
    | (Undefined, w') => (Undefined, w')
    end.
Proof.
  intros s. unfold Shader_new.
  rewrite (bindM_Ok _ _ _ _ _ (Shared_new_eq d w)). fold s.
  unfold bindM at 1, unwinding.
  by destruct (Shader_body d s source _) as [[s'| e |] w'].
Qed.

Lemma initUniforms_program s w s' :
  fst (initUniforms d s w) = Ok s' -> program s' = program s.
Proof.
  unfold initUniforms, bindM at 1 2; simpl.
  unfold bindM at 1, new_GLchar. case_decide; [done |]. simpl.
  unfold bindM.
  destruct (initUniforms_loop _ _ _ _ _ _ _) as [[table| e |] w']; simpl; [| done..].
  by intros [= <-].
Qed.

Lemma Shader_body_program s source w s' :
  fst (Shader_body d s source w) = Ok s' -> program s' = program s.
Proof.
  unfold Shader_body, after_link, bindM.
  destruct (compile_stages _ _ _ _) as [[ids| e |] w1]; [| done..].
  destruct (attach_all _ _ _) as [[[]| e |] w2]; [| done..].
  destruct (glLinkProgram _ _) as [[[]| e |] w3]; [| done..].
  destruct (check_link _ _ _) as [[[]| e |] w4]; [| done..].
  destruct (detach_delete_all _ _ _) as [[[]| e |] w5]; [| done..].
  apply initUniforms_program.
Qed.

Lemma Shader_new_program source w sh :
  fst (Shader_new d source w) = Ok sh ->
  program (share sh) = on_glCreateProgram d (gl_calls w).
Proof.
  rewrite Shader_new_cases. cbv zeta.
  pose proof (Shader_body_program
                {| program := on_glCreateProgram d (gl_calls w); uniforms := ∅ |}
                source (log_call CreateProgram w)) as Hbody.
  destruct (Shader_body _ _ _ _) as [[s'| e |] w']; simpl in *; [| done..].
  intros [= <-]. simpl. by apply Hbody.
Qed.

Lemma Shader_new_frame source w :
  boundProgram (snd (Shader_new d source w)) = boundProgram w.
Proof. destruct (emits_Shader_new d source w) as (ev & -> & _). reflexivity. Qed.

(** The stage loop: where it leaves the world, and which steps it has taken. *)
Lemma compile_stages_log slots ids w :
  exists ev,
    snd (compile_stages d slots ids w) = log_calls ev w /\
    forallb stage_call ev = true /\
    (forall ids', fst (compile_stages d slots ids w) = Ok ids' ->
                  stage_steps ev = steps_of slots).
Proof.
  destruct (emits_compile_stages d slots ids w) as (ev & Hev & Hcalls).
  destruct (compile_stages_steps d slots ids w) as (ev' & Hev' & _ & Hall).
  rewrite Hev in Hev'. simpl in Hev'. apply app_inv_head in Hev' as <-.
  by exists ev.
Qed.

Lemma compile_log id codeStr w :
  exists ev,
    snd (compile d id codeStr w) = log_calls ev w /\
    forallb stage_call ev = true /\
    stage_steps ev = [Sourced (c_str codeStr); Compiled].
Proof.
  destruct (emits_compile d id codeStr w) as (ev & Hev & Hcalls).
  destruct (compile_steps d id codeStr w) as (ev' & Hev' & Hsteps).
  rewrite Hev in Hev'. simpl in Hev'. apply app_inv_head in Hev' as <-.
  by exists ev.
Qed.

Lemma at_link_status_eq program ids w0 :
  at_link_status program ids w0
  = log_calls ((AttachShader program <$> ids) ++ [LinkProgram program]) w0.
Proof.
  unfold at_link_status. rewrite attach_all_eq. unfold log_call, log_calls. simpl.
  by rewrite <- app_assoc.
Qed.

End Whole.

(** X1.  However the constructor is left by an exception, the last thing it
    does is delete the program object it created, and that is the only
    [glDeleteProgram] of the construction; when it returns a shader it has
    deleted no program.  In between, only stage, attach, link, release and
    program-query calls are made. *)
Theorem construction_deletes_program_on_exception
    (d : Driver) (source : ShaderProgram) (w : World) :
  let r := Shader_new d source w in
  let created := on_glCreateProgram d (gl_calls w) in
  (forall e, fst r = Throw e ->
     exists ev,
       new_calls w (snd r) = CreateProgram :: ev ++ [DeleteProgram created] /\
       forallb body_call ev = true) /\
  (forall sh, fst r = Ok sh ->
     exists ev,
       new_calls w (snd r) = CreateProgram :: ev /\
       forallb body_call ev = true).
Proof.
  intros r created. subst r. rewrite Shader_new_cases. cbv zeta.
  destruct (emits_Shader_body d
              {| program := on_glCreateProgram d (gl_calls w); uniforms := ∅ |}
              source (log_call CreateProgram w)) as (ev & Hev & Hcalls).
  destruct (Shader_body d _ source _) as [[s'| e' |] w']; simpl in *; subst w'.
  - split; [done |]. intros sh _. exists ev. split; [| done].
    by rewrite log_call_log_calls, log_calls_log_calls, new_calls_log_calls.
  - split; [| done]. intros e _. exists ev. split; [| done].
    by rewrite !log_call_log_calls, !log_calls_log_calls, new_calls_log_calls.
  - done.
Qed.

Lemma construction_deletes_program_on_exception_witness :
  exists ev,
    new_calls initial_World
      (snd (Shader_new (Scripted.driver talkative_compiler) bad_fragment
              initial_World))
    = CreateProgram :: ev ++ [DeleteProgram 1] /\
    forallb body_call ev = true.
Proof.
  apply (proj1 (construction_deletes_program_on_exception
                  (Scripted.driver talkative_compiler) bad_fragment initial_World)
           (Shader_exn (mk_CompileError "bad" "oops!"))).
  reflexivity.
Defined.

(** X2.  Every exception that leaves the constructor is a compile error made
    from the source text of one of the non-empty stages (so its [err] member
    holds that text), a link error, or one of the two allocation errors; the
    uniform errors are never thrown by it. *)
Theorem construction_exceptions
    (d : Driver) (source : ShaderProgram) (w : World) (e : exn) :
  fst (Shader_new d source w) = Throw e ->
  (exists codeStr errStr,
     codeStr ∈ sources source /\ codeStr <> ""%string /\
     e = Shader_exn (mk_CompileError codeStr errStr) /\
     contains codeStr (err (mk_CompileError codeStr errStr))) \/
  (exists errStr, e = Shader_exn (mk_LinkError errStr)) \/
  e = std_length_error \/
  e = std_bad_alloc.
Proof.
  intros He.
  destruct (raises_Shader_new d source w e He)
    as [(codeStr & errStr & Hin & Hne & ->) | Hother]; [left | by right].
  exists codeStr, errStr. split_and!; [done.. |].
  rewrite err_CompileError by done. rewrite <- append_assoc.
  apply contains_suffix.
Qed.

Lemma construction_exceptions_witness :
  (exists codeStr errStr,
     codeStr ∈ sources bad_fragment /\ codeStr <> ""%string /\
     Shader_exn (mk_CompileError "bad" "oops!")
     = Shader_exn (mk_CompileError codeStr errStr) /\
     contains codeStr (err (mk_CompileError codeStr errStr))) \/
  (exists errStr,
     Shader_exn (mk_CompileError "bad" "oops!") = Shader_exn (mk_LinkError errStr)) \/
  Shader_exn (mk_CompileError "bad" "oops!") = std_length_error \/
  Shader_exn (mk_CompileError "bad" "oops!") = std_bad_alloc.
Proof.
  apply (construction_exceptions (Scripted.driver talkative_compiler)
           bad_fragment initial_World).
  reflexivity.
Defined.

(** X3.  Construction binds nothing: it never calls [glUseProgram], it leaves
    the [boundProgram] slot of every thread as it was, so that [isBound]
    answers for every shader on every thread as before; and the shader it
    returns holds the program identifier [glCreateProgram] answered. *)
Theorem construction_does_not_bind
    (d : Driver) (source : ShaderProgram) (w : World) :
  let r := Shader_new d source w in
  (forall t sh, isBound t sh (snd r) = isBound t sh w) /\
  (forall p, UseProgram p ∉ new_calls w (snd r)) /\
  (forall sh, fst r = Ok sh ->
     program (share sh) = on_glCreateProgram d (gl_calls w) /\
     forall t, isBound t sh (snd r) = true <->
               boundProgram w t = on_glCreateProgram d (gl_calls w)).
Proof.
  intros r. subst r. split_and!.
  - intros t sh. unfold isBound. by rewrite Shader_new_frame.
  - intros p Hin.
    destruct (emits_Shader_new d source w) as (ev & Hev & Hcalls).
    rewrite Hev, new_calls_log_calls in Hin.
    apply list_elem_of_In in Hin.
    by apply (proj1 (forallb_forall _ _) Hcalls) in Hin.
  - intros sh Hsh. pose proof (Shader_new_program d source w sh Hsh) as Hp.
    split; [done |]. intros t. unfold isBound.
    rewrite Shader_new_frame, Hp. apply bool_decide_eq_true.
Qed.

Lemma construction_does_not_bind_witness :
  exists sh,
    fst (Shader_new (Scripted.driver all_good) vertex_only initial_World) = Ok sh /\
    program (share sh) = 1.
Proof.
  eexists. split; [reflexivity |].
  apply (proj2 (proj2 (construction_does_not_bind
                         (Scripted.driver all_good) vertex_only initial_World))).
  reflexivity.
Defined.

(** X4.  [boundProgram] starts at 0, the identifier [glCreateProgram]
    answers when it fails.  A shader constructed around such an answer counts
    as bound on every thread whose slot still holds 0, and [bind] on such a
    thread returns without calling [glUseProgram]. *)
Theorem program_zero_counts_as_bound
    (d : Driver) (source : ShaderProgram) (w w' : World) (sh : Shader)
    (t : ThreadId) :
  Shader_new d source w = (Ok sh, w') ->
  on_glCreateProgram d (gl_calls w) = 0 ->
  boundProgram w t = 0 ->
  isBound t sh w' = true /\ bind t sh w' = (Ok tt, w').
Proof.
  intros Hnew Hzero Hslot.
  assert (isBound t sh w' = true) as Hb.
  { pose proof (Shader_new_program d source w sh) as Hp.
    pose proof (Shader_new_frame d source w) as Hf.
    rewrite Hnew in Hp, Hf. simpl in Hp, Hf.
    unfold isBound. rewrite Hf, Hp by done. apply bool_decide_eq_true. congruence. }
  split; [done |]. by apply bind_bound.
Qed.

Lemma program_zero_counts_as_bound_witness :
  exists sh w',
    Shader_new no_program_driver vertex_only initial_World = (Ok sh, w') /\
    isBound 0%nat sh w' = true.
Proof.
  eexists _, _. split; [reflexivity |].
  eapply (proj1 (program_zero_counts_as_bound no_program_driver vertex_only
                   initial_World _ _ 0%nat eq_refl eq_refl eq_refl)).
Defined.

(** ** Leaving the stage loop *)

Section StageLoop.

Variable d : Driver.

Lemma compile_stages_all_empty slots ids w :
  Forall (fun slot : ShaderType * string => slot.2 = ""%string) slots ->
  compile_stages d slots ids w = (Ok ids, w).
Proof.
  induction 1 as [|[shaderType src] slots Hsrc _ IH]; [done |].
  simpl in Hsrc. subst src. by rewrite compile_stages_skip.
Qed.

(** When every compile status query is answered with success the loop
    returns one identifier per slot that holds source text. *)
Lemma compile_stages_all_compile slots ids w :
  (forall h id, on_glGetShaderiv d h id GL_COMPILE_STATUS <> GL_FALSE) ->
  exists ids' w',
    compile_stages d slots ids w = (Ok (ids ++ ids'), w') /\
    length ids' = length (filter (fun slot => slot.2 <> ""%string) slots).
Proof.
  intros Hcompile. revert ids w.
  induction slots as [|[shaderType src] slots IH]; intros ids w.
  - exists [], w. by rewrite app_nil_r.
  - destruct (decide (src = ""%string)) as [->|Hsrc].
    + rewrite compile_stages_skip, filter_cons_False by naive_solver. apply IH.
    + rewrite compile_stages_cons by done. cbv zeta.
      rewrite filter_cons_True by done.
      erewrite bindM_Ok; [| apply compile_success, Hcompile].
      destruct (IH (ids ++ [on_glCreateShader d (gl_calls w) shaderType])
                  (at_shader_log_length
                     (on_glCreateShader d (gl_calls w) shaderType) src
                     (log_call (CreateShader shaderType) w)))
        as (ids' & w' & -> & Hlen).
      exists (on_glCreateShader d (gl_calls w) shaderType :: ids'), w'.
      rewrite <- app_assoc. simpl. by rewrite Hlen.
Qed.

(** The loop up to and including a stage whose [compile] throws. *)
Lemma compile_stages_throw_at pre shaderType codeStr rest ids w1 w0 e wt :
  codeStr <> ""%string ->
  compile_stages d pre [] w1 = (Ok ids, w0) ->
  compile d (on_glCreateShader d (gl_calls w0) shaderType) codeStr
          (log_call (CreateShader shaderType) w0) = (Throw e, wt) ->
  compile_stages d (pre ++ (shaderType, codeStr) :: rest) [] w1 = (Throw e, wt).
Proof.
  intros Hcode Hpre Hcompile.
  rewrite compile_stages_app, (bindM_Ok _ _ _ _ _ Hpre).
  rewrite compile_stages_cons by done. cbv zeta.
  by apply bindM_Throw.
Qed.

End StageLoop.

(** X5.  A stage whose [compile] throws ends the construction on the spot:
    the stages of the later slots are not created, nothing is attached or
    linked, and none of the stage objects created so far is deleted.  The
    log of the construction is the creation of the program, the create,
    source, compile and query calls up to the failing stage, and the deletion
    of the program. *)
Theorem compile_failure_abandons_stages
    (d : Driver) (source : ShaderProgram) (w : World)
    (pre : list (ShaderType * string)) (shaderType : ShaderType)
    (codeStr : string) (rest : list (ShaderType * string))
    (ids : list GLuint) (w0 : World) (e : exn) :
  reaches_stage d source w pre shaderType codeStr rest ids w0 ->
  fst (compile d (on_glCreateShader d (gl_calls w0) shaderType) codeStr
               (log_call (CreateShader shaderType) w0)) = Throw e ->
  let r := Shader_new d source w in
  fst r = Throw e /\
  exists ev,
    new_calls w (snd r)
    = CreateProgram :: ev ++ [DeleteProgram (on_glCreateProgram d (gl_calls w))] /\
    forallb stage_call ev = true /\
    stage_steps ev = steps_of (pre ++ [(shaderType, codeStr)]).
Proof.
  intros (Hslots & Hcode & Hpre) Hthrow r. subst r.
  destruct (compile_stages_log d pre [] (log_call CreateProgram w))
    as (ev1 & Hev1 & Hcalls1 & Hsteps1).
  rewrite Hpre in Hev1, Hsteps1. simpl in Hev1. subst w0.
  destruct (compile_log d (on_glCreateShader d
                             (gl_calls (log_calls ev1 (log_call CreateProgram w)))
                             shaderType)
              codeStr
              (log_call (CreateShader shaderType)
                 (log_calls ev1 (log_call CreateProgram w))))
    as (ev2 & Hev2 & Hcalls2 & Hsteps2).
  destruct (compile d _ codeStr _) as [r2 wt] eqn:Hcompile.
  simpl in Hthrow, Hev2. subst r2 wt.
  rewrite (Shader_new_stage_throw d source w e _
             ltac:(rewrite Hslots; by eapply compile_stages_throw_at)).
  split; [done |].
  exists (ev1 ++ CreateShader shaderType :: ev2). split_and!.
  - simpl. rewrite !log_call_log_calls, !log_calls_log_calls, new_calls_log_calls.
    simpl. by rewrite <- !app_assoc.
  - rewrite forallb_app, Hcalls1. simpl. exact Hcalls2.
  - rewrite stage_steps_app, steps_of_app, (Hsteps1 ids eq_refl).
    f_equal. unfold steps_of. rewrite filter_cons_True by done.
    change (stage_steps (CreateShader shaderType :: ev2))
      with (Created shaderType :: stage_steps ev2).
    by rewrite Hsteps2.
Qed.

Lemma compile_failure_abandons_stages_witness :
  fst (Shader_new (Scripted.driver talkative_compiler) bad_fragment initial_World)
  = Throw (Shader_exn (mk_CompileError "bad" "oops!")).
Proof.
  apply (compile_failure_abandons_stages
           (Scripted.driver talkative_compiler) bad_fragment initial_World
           [(GL_VERTEX_SHADER, "void main(){}"%string);
            (GL_TESS_CONTROL_SHADER, ""%string);
            (GL_TESS_EVALUATION_SHADER, ""%string);
            (GL_GEOMETRY_SHADER, ""%string)]
           GL_FRAGMENT_SHADER "bad"%string []
           [2]
           (snd (compile_stages (Scripted.driver talkative_compiler)
                   [(GL_VERTEX_SHADER, "void main(){}"%string)] []
                   (log_call CreateProgram initial_World)))).
  - split_and!; [reflexivity | done | reflexivity].
  - reflexivity.
Defined.

(** ** After the stage loop *)

Section AfterLoop.

Variable d : Driver.

(** The constructor from the link check on, when the check lets it pass. *)
Lemma Shader_new_check_passes source w ids w0 w' :
  compile_stages d (zip shaderTypes (sources source)) []
                 (log_call CreateProgram w) = (Ok ids, w0) ->
  let s := {| program := on_glCreateProgram d (gl_calls w); uniforms := ∅ |} in
  check_link d (program s) (at_link_status (program s) ids w0) = (Ok tt, w') ->
  Shader_new d source w = finish d s ids w'.
Proof.
  intros Hloop s Hcheck.
  rewrite (Shader_new_linked d source w ids w0 Hloop). fold s.
  by apply finish_after_check.
Qed.

(** The constructor when the link check throws. *)
Lemma Shader_new_check_throws source w ids w0 w' e :
  compile_stages d (zip shaderTypes (sources source)) []
                 (log_call CreateProgram w) = (Ok ids, w0) ->
  let s := {| program := on_glCreateProgram d (gl_calls w); uniforms := ∅ |} in
  check_link d (program s) (at_link_status (program s) ids w0) = (Throw e, w') ->
  Shader_new d source w = (Throw e, log_call (DeleteProgram (program s)) w').
Proof.
  intros Hloop s Hcheck.
  rewrite (Shader_new_linked d source w ids w0 Hloop). fold s.
  apply bindM_Throw. unfold after_link.
  by rewrite (unwinding_bind_Throw _ _ _ _ _ _ Hcheck).
Qed.

(** [finish]: the release loop, then the introspection, then perhaps the
    deletion of the program. *)
Lemma finish_log s ids w :
  exists ev,
    snd (finish d s ids w)
    = log_calls ((ids ≫= fun p => [DetachShader (program s) p; DeleteShader p])
                   ++ ev) w /\
    forallb program_call ev = true.
Proof.
  unfold finish.
  assert (emits program_call (initUniforms d s)) as Hinit.
  { eapply emits_weaken; [| apply emits_initUniforms].
    intros c Hc. unfold program_call. by rewrite Hc. }
  assert (emits program_call
            (s' <- unwinding (initUniforms d s) (Shared_delete s) ;;
             ret {| share := s' |})%gl) as Hrest.
  { emits_step; [| emits_step].
    apply emits_unwinding; [done |].
    unfold Shared_delete, glDeleteProgram. emits_step. }
  destruct (Hrest (log_calls
                     (ids ≫= fun p => [DetachShader (program s) p; DeleteShader p])
                     w)) as (ev & Hev & Hcalls).
  exists ev. split; [| done].
  rewrite <- log_calls_log_calls, <- Hev.
  unfold bindM at 1 3.
  rewrite (unwinding_bind_Ok _ _ _ _ _ _ (detach_delete_all_eq _ _ _)).
  reflexivity.
Qed.

End AfterLoop.

(** X6.  Whenever the link check does not throw (the link succeeded, or
    failed with a reported log length below 1), the next calls of the
    constructor detach and then delete each attached stage, in the order in
    which they were attached; what follows are program queries and at most
    the deletion of the program. *)
Theorem stages_released_when_check_passes
    (d : Driver) (source : ShaderProgram) (w : World)
    (ids : list GLuint) (w0 w' : World) :
  compile_stages d (zip shaderTypes (sources source)) []
                 (log_call CreateProgram w) = (Ok ids, w0) ->
  let created := on_glCreateProgram d (gl_calls w) in
  check_link d created (at_link_status created ids w0) = (Ok tt, w') ->
  exists ev_check ev,
    new_calls w0 (snd (Shader_new d source w))
    = (AttachShader created <$> ids) ++ [LinkProgram created] ++ ev_check
        ++ (ids ≫= fun p => [DetachShader created p; DeleteShader p]) ++ ev /\
    forallb program_query ev_check = true /\
    forallb program_call ev = true.
Proof.
  intros Hloop created Hcheck.
  rewrite (Shader_new_check_passes d source w ids w0 w' Hloop Hcheck).
  cbv zeta. fold created.
  destruct (emits_check_link d created (at_link_status created ids w0))
    as (ev_check & Hev_check & Hcalls_check).
  rewrite Hcheck in Hev_check. simpl in Hev_check. subst w'.
  destruct (finish_log d {| program := created; uniforms := ∅ |} ids
              (log_calls ev_check (at_link_status created ids w0)))
    as (ev & -> & Hcalls).
  exists ev_check, ev. split_and!; [| done..].
  rewrite at_link_status_eq, !log_calls_log_calls, new_calls_log_calls.
  simpl. by rewrite <- !app_assoc.
Qed.

Lemma stages_released_when_check_passes_witness :
  exists ev_check ev,
    new_calls
      (snd (compile_stages (Scripted.driver unexplained_link_failure)
              (zip shaderTypes (sources vertex_only)) []
              (log_call CreateProgram initial_World)))
      (snd (Shader_new (Scripted.driver unexplained_link_failure) vertex_only
              initial_World))
    = (AttachShader 1 <$> [2]) ++ [LinkProgram 1] ++ ev_check
        ++ ([2] ≫= fun p => [DetachShader 1 p; DeleteShader p]) ++ ev /\
    forallb program_query ev_check = true /\
    forallb program_call ev = true.
Proof.
  apply (stages_released_when_check_passes
           (Scripted.driver unexplained_link_failure) vertex_only initial_World
           [2]
           (snd (compile_stages (Scripted.driver unexplained_link_failure)
                   (zip shaderTypes (sources vertex_only)) []
                   (log_call CreateProgram initial_World)))
           (snd (check_link (Scripted.driver unexplained_link_failure) 1
                   (at_link_status 1 [2]
                      (snd (compile_stages
                              (Scripted.driver unexplained_link_failure)
                              (zip shaderTypes (sources vertex_only)) []
                              (log_call CreateProgram initial_World))))))).
  - reflexivity.
  - reflexivity.
Defined.

(** X7.  When the link check throws, the constructor makes one more call,
    the deletion of the program: none of the attached stages is detached or
    deleted. *)
Theorem link_error_releases_nothing
    (d : Driver) (source : ShaderProgram) (w : World)
    (ids : list GLuint) (w0 w' : World) (e : exn) :
  compile_stages d (zip shaderTypes (sources source)) []
                 (log_call CreateProgram w) = (Ok ids, w0) ->
  let created := on_glCreateProgram d (gl_calls w) in
  check_link d created (at_link_status created ids w0) = (Throw e, w') ->
  let r := Shader_new d source w in
  fst r = Throw e /\
  exists ev_check,
    new_calls w0 (snd r)
    = (AttachShader created <$> ids) ++ [LinkProgram created] ++ ev_check
        ++ [DeleteProgram created] /\
    forallb program_query ev_check = true.
Proof.
  intros Hloop created Hcheck r. subst r.
  rewrite (Shader_new_check_throws d source w ids w0 w' e Hloop Hcheck).
  split; [done |].
  destruct (emits_check_link d created (at_link_status created ids w0))
    as (ev_check & Hev_check & Hcalls_check).
  rewrite Hcheck in Hev_check. simpl in Hev_check. subst w'.
  exists ev_check. split; [| done].
  simpl. rewrite at_link_status_eq, log_call_log_calls, !log_calls_log_calls.
  rewrite new_calls_log_calls. by rewrite <- !app_assoc.
Qed.

Lemma link_error_releases_nothing_witness :
  fst (Shader_new (Scripted.driver failing_linker) vertex_only initial_World)
  = Throw (Shader_exn (mk_LinkError "link failed!")).
Proof.
  apply (link_error_releases_nothing
           (Scripted.driver failing_linker) vertex_only initial_World [2]
           (snd (compile_stages (Scripted.driver failing_linker)
                   (zip shaderTypes (sources vertex_only)) []
                   (log_call CreateProgram initial_World)))
           (snd (check_link (Scripted.driver failing_linker) 1
                   (at_link_status 1 [2]
                      (snd (compile_stages (Scripted.driver failing_linker)
                              (zip shaderTypes (sources vertex_only)) []
                              (log_call CreateProgram initial_World))))))).
  - reflexivity.
  - reflexivity.
Defined.

(** X8.  On a driver that answers every compile status and every link status
    with success and reports the uniforms [us] of the new program, the
    constructor returns a shader holding the new program and a table with an
    entry for each of [us].  Its calls are: create the program; create,
    source and compile a stage for each slot with source text, in slot order;
    attach each stage; link and query the link status; detach and delete each
    stage; introspect.  No slot of [boundProgram] changes. *)
Theorem construction_succeeds
    (d : Driver) (source : ShaderProgram) (w : World)
    (maxLength : GLint) (us : list (string * GLint * GLenum))
    (loc : string -> GLint) :
  (forall h id, on_glGetShaderiv d h id GL_COMPILE_STATUS <> GL_FALSE) ->
  (forall h p, on_glGetProgramiv d h p GL_LINK_STATUS <> GL_FALSE) ->
  let created := on_glCreateProgram d (gl_calls w) in
  reports_uniforms d created maxLength us loc ->
  exists w' ids ev,
    Shader_new d source w
    = (Ok {| share := {| program := created;
                         uniforms := table_of loc us ∅ |} |}, w') /\
    length ids = length (filter (fun slot => slot.2 <> ""%string)
                                (zip shaderTypes (sources source))) /\
    forallb stage_call ev = true /\
    stage_steps ev = planned_steps source /\
    new_calls w w'
    = CreateProgram :: ev
        ++ (AttachShader created <$> ids)
        ++ [LinkProgram created; GetProgramiv created GL_LINK_STATUS]
        ++ (ids ≫= fun p => [DetachShader created p; DeleteShader p])
        ++ introspection_calls created maxLength us /\
    boundProgram w' = boundProgram w.
Proof.
  intros Hcompile Hlink created Hreported.
  destruct (compile_stages_all_compile d (zip shaderTypes (sources source)) []
              (log_call CreateProgram w) Hcompile) as (ids & w0 & Hloop & Hlen).
  change ([] ++ ids) with ids in Hloop.
  destruct (compile_stages_log d (zip shaderTypes (sources source)) []
              (log_call CreateProgram w)) as (ev & Hev & Hcalls & Hsteps).
  rewrite Hloop in Hev, Hsteps. simpl in Hev. subst w0.
  pose proof (check_link_linked d created
                (at_link_status created ids
                   (log_calls ev (log_call CreateProgram w)))
                (Hlink _ _)) as Hcheck.
  rewrite (Shader_new_check_passes d source w ids _ _ Hloop Hcheck).
  unfold finish. cbv zeta. fold created.
  unfold bindM at 1.
  rewrite (unwinding_bind_Ok _ _ _ _ _ _ (detach_delete_all_eq _ _ _)).
  unfold unwinding.
  rewrite (initUniforms_eq d created maxLength us loc
             {| program := created; uniforms := ∅ |} _ Hreported eq_refl).
  eexists _, ids, ev. split; [reflexivity |]. split_and!.
  - exact Hlen.
  - exact Hcalls.
  - exact (Hsteps ids eq_refl).
  - unfold at_program_log_length. cbn [program].
    rewrite at_link_status_eq.
    change {| gl_calls := gl_calls ?w1 ++ ?cs; boundProgram := boundProgram ?w1 |}
      with (log_calls cs w1).
    rewrite !log_call_log_calls, !log_calls_log_calls, new_calls_log_calls.
    simpl. by rewrite <- !app_assoc.
  - rewrite at_link_status_eq. reflexivity.
Qed.

Lemma construction_succeeds_witness :
  exists w',
    Shader_new (Scripted.driver all_good) vertex_only initial_World
    = (Ok {| share :=
               {| program := 1;
                  uniforms :=
                    table_of (Scripted.location_of (Scripted.active all_good))
                      [("u_color"%string, 1, 35666); ("u_mvp"%string, 1, 35676)]
                      ∅ |} |}, w').
Proof.
  destruct (construction_succeeds (Scripted.driver all_good) vertex_only
              initial_World 8
              [("u_color"%string, 1, 35666); ("u_mvp"%string, 1, 35676)]
              (Scripted.location_of (Scripted.active all_good)))
    as (w' & ids & ev & Hnew & _).
  - intros h id. by vm_compute.
  - intros h p. by vm_compute.
  - split_and!.
    + lia.
    + reflexivity.
    + reflexivity.
    + intros h [|[|i]] name size type Hi; simplify_eq/=.
      * eexists. split; [reflexivity |]. split_and!.
        -- by vm_compute.
        -- apply (bool_decide_unpack _). by vm_compute.
        -- reflexivity.
      * eexists. split; [reflexivity |]. split_and!.
        -- by vm_compute.
        -- apply (bool_decide_unpack _). by vm_compute.
        -- reflexivity.
    + reflexivity.
  - exists w'. exact Hnew.
Defined.

Lemma table_of_lookup_is_Some
    (loc : string -> GLint) (us : list (string * GLint * GLenum))
    (table : gmap string UniformData.t) (name : string) :
  is_Some (table_of loc us table !! name) <->
  name ∈ us.*1.*1 \/ is_Some (table !! name).
Proof.
  revert table. induction us as [|u us IH]; intros table.
  - simpl. split; [by right |]. intros [Hin|H]; [| done].
    by apply elem_of_nil in Hin.
  - rewrite table_of_cons, IH, !fmap_cons, elem_of_cons.
    destruct (decide (u.1.1 = name)) as [<-|Hne].
    + rewrite lookup_insert_eq. split; [intros _ | intros _; right; by eexists].
      left. by left.
    + rewrite lookup_insert_ne by done.
      intuition congruence.
Qed.

(** X9.  Introspection followed by lookup: after [initUniforms] has filled an
    empty table from a driver that reports the uniforms [us], [uniform]
    returns a present entry for exactly the reported names and an absent one
    for every other name; the entry found under a name holds the size and
    type reported with its last occurrence and the location the driver
    resolves the name to. *)
Theorem uniform_after_initUniforms
    (d : Driver) (s s' : Shared) (w w' : World)
    (maxLength : GLint) (us : list (string * GLint * GLenum))
    (loc : string -> GLint) :
  reports_uniforms d (program s) maxLength us loc ->
  uniforms s = ∅ ->
  initUniforms d s w = (Ok s', w') ->
  (forall name : string,
     is_Some (data (uniform {| share := s' |} name)) <-> name ∈ us.*1.*1) /\
  (forall name : string,
     name ∉ us.*1.*1 -> data (uniform {| share := s' |} name) = None) /\
  (forall us1 (name : string) size type us2,
     us = us1 ++ (name, size, type) :: us2 ->
     name ∉ us2.*1.*1 ->
     data (uniform {| share := s' |} name)
     = Some (UniformData.mk size type (loc name))).
Proof.
  intros Hreported Hempty Hinit.
  rewrite (initUniforms_eq d (program s) maxLength us loc s w Hreported eq_refl)
    in Hinit.
  injection Hinit as <- _.
  assert (forall name : string,
            data (uniform
                    {| share := {| program := program s;
                                   uniforms := table_of loc us (uniforms s) |} |}
                    name)
            = table_of loc us ∅ !! name) as Hdata.
  { intros name. unfold uniform. simpl. rewrite Hempty.
    by destruct (table_of loc us ∅ !! name). }
  assert (forall name : string,
            is_Some (table_of loc us ∅ !! name) <-> name ∈ us.*1.*1) as Hsome.
  { intros name. rewrite table_of_lookup_is_Some, lookup_empty.
    split; [intros [H|[x Hx]]; [done | discriminate] | by left]. }
  split_and!.
  - intros name. by rewrite Hdata.
  - intros name Hnot. rewrite Hdata.
    destruct (table_of loc us ∅ !! name) eqn:Hl; [| done].
    exfalso. apply Hnot, Hsome. rewrite Hl. by eexists.
  - intros us1 name size type us2 -> Hlast. rewrite Hdata.
    by apply table_of_lookup_last.
Qed.

Lemma uniform_after_initUniforms_witness :
  data (uniform
          {| share :=
               {| program := 1;
                  uniforms :=
                    table_of (Scripted.location_of (Scripted.active two_uniforms))
                      [("u_color"%string, 1, 35666); ("u_mvp"%string, 1, 35676)]
                      ∅ |} |}
          "does_not_exist")
  = None.
Proof.
  assert (reports_uniforms (Scripted.driver two_uniforms) 1 8
            [("u_color"%string, 1, 35666); ("u_mvp"%string, 1, 35676)]
            (Scripted.location_of (Scripted.active two_uniforms))) as Hreported.
  { split_and!.
    - lia.
    - reflexivity.
    - reflexivity.
    - intros h [|[|i]] name size type Hi; simplify_eq/=.
      + eexists. split; [reflexivity |]. split_and!.
        * by vm_compute.
        * apply (bool_decide_unpack _). by vm_compute.
        * reflexivity.
      + eexists. split; [reflexivity |]. split_and!.
        * by vm_compute.
        * apply (bool_decide_unpack _). by vm_compute.
        * reflexivity.
    - reflexivity. }
  apply (proj1 (proj2 (uniform_after_initUniforms
                         (Scripted.driver two_uniforms)
                         {| program := 1; uniforms := ∅ |} _
                         initial_World
                         (log_calls
                            (introspection_calls 1 8
                               [("u_color"%string, 1, 35666);
                                ("u_mvp"%string, 1, 35676)])
                            initial_World)
                         8
                         [("u_color"%string, 1, 35666); ("u_mvp"%string, 1, 35676)]
                         (Scripted.location_of (Scripted.active two_uniforms))
                         Hreported eq_refl eq_refl))).
  apply (bool_decide_unpack _). by vm_compute.
Defined.

(** X10.  A source set with no text in any slot: no stage object is created,
    nothing is attached, the program is linked as it is, and the rest of the
    construction consists of program queries and at most the deletion of the
    program.  No compile error can result. *)
Theorem construction_without_sources
    (d : Driver) (source : ShaderProgram) (w : World) :
  Forall (fun codeStr => codeStr = ""%string) (sources source) ->
  let r := Shader_new d source w in
  let created := on_glCreateProgram d (gl_calls w) in
  (exists ev,
     new_calls w (snd r) = CreateProgram :: LinkProgram created :: ev /\
     forallb program_call ev = true) /\
  (forall msg, fst r <> Throw (Shader_exn (ShaderE_CompileError msg))).
Proof.
  intros Hempty r created. subst r. split.
  - assert (compile_stages d (zip shaderTypes (sources source)) []
              (log_call CreateProgram w) = (Ok [], log_call CreateProgram w))
      as Hloop.
    { apply compile_stages_all_empty.
      apply Forall_forall. intros [shaderType src] Hin. simpl.
      apply elem_of_zip_r in Hin.
      by apply (proj1 (Forall_forall _ _) Hempty) in Hin. }
    destruct (emits_check_link d created
                (at_link_status created [] (log_call CreateProgram w)))
      as (ev_check & Hev_check & Hcalls_check).
    destruct (check_link d created _) as [[[]| e |] w'] eqn:Hcheck;
      simpl in Hev_check; subst w'.
    + rewrite (Shader_new_check_passes d source w [] _ _ Hloop Hcheck).
      cbv zeta. fold created.
      destruct (finish_log d {| program := created; uniforms := ∅ |} []
                  (log_calls ev_check
                     (at_link_status created [] (log_call CreateProgram w))))
        as (ev & -> & Hcalls).
      exists (ev_check ++ ev). split.
      * rewrite at_link_status_eq, !log_call_log_calls, !log_calls_log_calls.
        by rewrite new_calls_log_calls.
      * rewrite forallb_app, Hcalls, andb_true_r.
        apply forallb_forall. intros c Hc. unfold program_call.
        by rewrite (proj1 (forallb_forall _ _) Hcalls_check c Hc).
    + rewrite (Shader_new_check_throws d source w [] _ _ e Hloop Hcheck).
      exists (ev_check ++ [DeleteProgram created]). split.
      * simpl.
        rewrite at_link_status_eq, !log_call_log_calls, !log_calls_log_calls.
        by rewrite new_calls_log_calls.
      * rewrite forallb_app. simpl. rewrite andb_true_r.
        apply forallb_forall. intros c Hc. unfold program_call.
        by rewrite (proj1 (forallb_forall _ _) Hcalls_check c Hc).
    + exists ev_check. split.
      * rewrite (Shader_new_linked d source w [] _ Hloop). cbv zeta.
        fold created. unfold bindM at 1, unwinding, after_link.
        rewrite (bindM_Undefined _ _ _ _ Hcheck). simpl.
        rewrite at_link_status_eq, !log_call_log_calls, !log_calls_log_calls.
        by rewrite new_calls_log_calls.
      * apply forallb_forall. intros c Hc. unfold program_call.
        by rewrite (proj1 (forallb_forall _ _) Hcalls_check c Hc).
  - intros msg Hthrow.
    destruct (raises_Shader_new d source w _ Hthrow)
      as [(codeStr & errStr & Hin & Hne & _) | [[errStr [=]] | [[=] | [=]]]].
    by apply (proj1 (Forall_forall _ _) Hempty) in Hin.
Qed.

Lemma construction_without_sources_witness :
  exists ev,
    new_calls initial_World
      (snd (Shader_new (Scripted.driver all_good) no_sources initial_World))
    = CreateProgram :: LinkProgram 1 :: ev /\
    forallb program_call ev = true.
Proof.
  apply (construction_without_sources (Scripted.driver all_good) no_sources
           initial_World).
  repeat constructor.
Defined.

(** ** Sequences of binds *)

Section BindSequences.

Variable t : ThreadId.

Lemma bind_sets_slot sh w : boundProgram (snd (bind t sh w)) t = program (share sh).
Proof.
  pose proof (isBound_after_bind t sh w) as Hb.
  unfold isBound in Hb. by apply bool_decide_eq_true in Hb.
Qed.

Lemma bind_each_cons sh shs w :
  bind_each t (sh :: shs) w = bind_each t shs (snd (bind t sh w)).
Proof.
  cbn [bind_each]. unfold bindM.
  pose proof (bind_returns t sh w) as Hret.
  destruct (bind t sh w) as [r w1]. simpl in *. by subst r.
Qed.

Lemma bind_each_returns shs w : fst (bind_each t shs w) = Ok tt.
Proof.
  revert w. induction shs as [|sh shs IH]; intros w; [done |].
  by rewrite bind_each_cons.
Qed.

Lemma bind_each_snoc shs sh w :
  snd (bind_each t (shs ++ [sh]) w) = snd (bind t sh (snd (bind_each t shs w))).
Proof.
  revert w. induction shs as [|sh0 shs IH]; intros w.
  - simpl. unfold bindM.
    pose proof (bind_returns t sh w) as Hret.
    destruct (bind t sh w) as [r w1]. simpl in *. by subst r.
  - cbn [app]. by rewrite !bind_each_cons, IH.
Qed.

Lemma bind_each_other_thread shs w t' :
  t' <> t -> boundProgram (snd (bind_each t shs w)) t' = boundProgram w t'.
Proof.
  intros Hne. revert w. induction shs as [|sh shs IH]; intros w; [done |].
  rewrite bind_each_cons, IH. by apply bind_other_thread.
Qed.

Lemma bind_each_calls shs w :
  gl_calls (snd (bind_each t shs w))
  = gl_calls w
      ++ (UseProgram <$> activations (boundProgram w t)
                                     ((fun sh => program (share sh)) <$> shs)).
Proof.
  revert w. induction shs as [|sh shs IH]; intros w.
  - simpl. by rewrite app_nil_r.
  - rewrite bind_each_cons, IH, bind_sets_slot, fmap_cons. cbn [activations].
    destruct (isBound t sh w) eqn:Hb.
    + rewrite bind_bound by done. simpl.
      unfold isBound in Hb. apply bool_decide_eq_true in Hb.
      by rewrite decide_True.
    + rewrite bind_unbound by done. simpl.
      unfold isBound in Hb. apply bool_decide_eq_false in Hb.
      rewrite decide_False by done. rewrite fmap_cons.
      by rewrite <- app_assoc.
Qed.

End BindSequences.

(** X11.  After any sequence of binds on a thread, the shaders bound on that
    thread are exactly those whose program is the program of the shader bound
    last: the last bind wins, handles that share one program are bound
    together, and every other shader is unbound.  The slots of the other
    threads are as before the sequence. *)
Theorem last_bind_wins
    (t : ThreadId) (shs : list Shader) (sh : Shader) (w : World) :
  let w' := snd (bind_each t (shs ++ [sh]) w) in
  (forall sh', isBound t sh' w' = true <->
               program (share sh') = program (share sh)) /\
  (forall t', t' <> t -> boundProgram w' t' = boundProgram w t').
Proof.
  intros w'. subst w'. split.
  - intros sh'. unfold isBound.
    rewrite bind_each_snoc, bind_sets_slot, bool_decide_eq_true.
    split; congruence.
  - intros t' Hne. by apply bind_each_other_thread.
Qed.

Lemma last_bind_wins_witness :
  boundProgram
    (snd (bind_each 0%nat ([colour_shader] ++ [other_shader]) initial_World))
    1%nat
  = boundProgram initial_World 1%nat.
Proof.
  apply (proj2 (last_bind_wins 0%nat [colour_shader] other_shader initial_World)).
  lia.
Defined.

(** X12.  A sequence of binds on one thread always returns, and the
    [glUseProgram] calls it makes are those for the requested programs with
    every request for the already active program left out: a program is
    activated only when it differs from the one the thread's slot holds at
    that moment. *)
Theorem binds_activate_only_on_change
    (t : ThreadId) (shs : list Shader) (w : World) :
  fst (bind_each t shs w) = Ok tt /\
  new_calls w (snd (bind_each t shs w))
  = UseProgram <$> activations (boundProgram w t)
                               ((fun sh => program (share sh)) <$> shs).
Proof.
  split; [apply bind_each_returns |].
  unfold new_calls. by rewrite bind_each_calls, drop_app_length.
Qed.

(** Binding [a b b a a] from a fresh thread activates [a b a]. *)
Example binds_activate_only_on_change_example :
  new_calls initial_World
    (snd (bind_each 0%nat
            [colour_shader; other_shader; other_shader; colour_shader; colour_shader]
            initial_World))
  = [UseProgram 1; UseProgram 7; UseProgram 1].
Proof. reflexivity. Qed.

(** X13.  Binds made by two different threads do not interfere: in either
    order they leave the same program in every thread's slot and make the
    same [glUseProgram] calls, up to the order in the log. *)
Theorem binds_on_two_threads_commute
    (t1 t2 : ThreadId) (a b : Shader) (w : World) :
  t1 <> t2 ->
  let w12 := snd ((bind t1 a ;; bind t2 b)%gl w) in
  let w21 := snd ((bind t2 b ;; bind t1 a)%gl w) in
  (forall t, boundProgram w12 t = boundProgram w21 t) /\
  gl_calls w12 ≡ₚ gl_calls w21.
Proof.
  intros Hne w12 w21. subst w12 w21.
  assert (forall t t' sh sh' w0,
            t <> t' ->
            isBound t' sh' (snd (bind t sh w0)) = isBound t' sh' w0) as Hframe.
  { intros t t' sh sh' w0 Htt. unfold isBound.
    by rewrite bind_other_thread by congruence. }
  assert (forall t t' sh sh' w0,
            (bind t sh ;; bind t' sh')%gl w0 = bind t' sh' (snd (bind t sh w0)))
    as Hseq.
  { intros t t' sh sh' w0. unfold bindM.
    pose proof (bind_returns t sh w0) as Hret.
    destruct (bind t sh w0) as [r w1]. simpl in *. by subst r. }
  rewrite !Hseq.
  pose proof (Hframe t1 t2 a b w Hne) as Hb.
  pose proof (Hframe t2 t1 b a w (not_eq_sym Hne)) as Ha.
  destruct (isBound t1 a w) eqn:Ha0; destruct (isBound t2 b w) eqn:Hb0.
  - rewrite (bind_bound t1 a w Ha0), (bind_bound t2 b w Hb0). cbn [snd].
    by rewrite (bind_bound t1 a w Ha0), (bind_bound t2 b w Hb0).
  - rewrite (bind_bound t1 a w Ha0). cbn [snd].
    rewrite (bind_unbound t2 b w Hb0) in Ha |- *. cbn [snd] in Ha |- *.
    by rewrite (bind_bound t1 a _ Ha).
  - rewrite (bind_bound t2 b w Hb0). cbn [snd].
    rewrite (bind_unbound t1 a w Ha0) in Hb |- *. cbn [snd] in Hb |- *.
    by rewrite (bind_bound t2 b _ Hb).
  - rewrite (bind_unbound t1 a w Ha0) in Hb |- *.
    rewrite (bind_unbound t2 b w Hb0) in Ha |- *.
    cbn [snd] in Ha, Hb |- *.
    rewrite (bind_unbound t2 b _ Hb), (bind_unbound t1 a _ Ha). simpl. split.
    + intros t. repeat case_decide; congruence.
    + rewrite <- !app_assoc. apply Permutation_app_head. simpl. apply perm_swap.
Qed.

Lemma binds_on_two_threads_commute_witness :
  boundProgram
    (snd ((bind 0%nat colour_shader ;; bind 1%nat other_shader)%gl initial_World))
    1%nat
  = boundProgram
      (snd ((bind 1%nat other_shader ;; bind 0%nat colour_shader)%gl initial_World))
      1%nat.
Proof.
  apply (proj1 (binds_on_two_threads_commute 0%nat 1%nat colour_shader
                  other_shader initial_World ltac:(lia))).
Defined.

(** ** Edge cases of the introspection *)

Lemma Shared_eta (s : Shared) : {| program := program s; uniforms := uniforms s |} = s.
Proof. by destruct s. Qed.

Lemma store_nil (buf : buffer) : store buf [] = Some buf.
Proof. unfold store. rewrite decide_True by (simpl; lia). simpl. by rewrite drop_0. Qed.

Lemma load_cstr_indeterminate (n : nat) : load_cstr (replicate n None) = None.
Proof. by destruct n. Qed.

(** X14.  When the driver reports no active uniforms (a count of zero, or a
    negative one) and a name bound that is not negative, [initUniforms]
    makes its two queries and returns with the table untouched.  When the
    reported name bound is negative, whatever the count, the allocation of
    the name buffer throws before any uniform is queried. *)
Theorem initUniforms_without_uniforms (d : Driver) (s : Shared) (w : World) :
  let queries := [GetProgramiv (program s) GL_ACTIVE_UNIFORMS;
                  GetProgramiv (program s) GL_ACTIVE_UNIFORM_MAX_LENGTH] in
  (uniform_count d s w <= 0 -> 0 <= name_bound d s w ->
   initUniforms d s w = (Ok s, log_calls queries w)) /\
  (name_bound d s w < 0 ->
   initUniforms d s w = (Throw std_bad_alloc, log_calls queries w)).
Proof.
  cbv zeta. unfold uniform_count, name_bound. split.
  - intros Hcount Hbound. unfold initUniforms, glGetProgramiv.
    erewrite bindM_Ok by reflexivity.
    erewrite bindM_Ok by reflexivity.
    unfold new_GLchar. rewrite decide_False by lia.
    erewrite bindM_Ok by reflexivity.
    replace (Z.to_nat (on_glGetProgramiv d (gl_calls w) (program s)
                         GL_ACTIVE_UNIFORMS)) with 0%nat by lia.
    simpl. unfold bindM, ret. rewrite Shared_eta.
    by rewrite !log_call_log_calls, !log_calls_log_calls.
  - intros Hbound. unfold initUniforms, glGetProgramiv.
    erewrite bindM_Ok by reflexivity.
    erewrite bindM_Ok by reflexivity.
    unfold new_GLchar. rewrite decide_True by lia.
    unfold bindM, throw.
    by rewrite !log_call_log_calls, !log_calls_log_calls.
Qed.

Lemma initUniforms_without_uniforms_witness :
  initUniforms (Scripted.driver talkative_compiler)
    {| program := 1; uniforms := ∅ |} initial_World
  = (Ok {| program := 1; uniforms := ∅ |},
     log_calls [GetProgramiv 1 GL_ACTIVE_UNIFORMS;
                GetProgramiv 1 GL_ACTIVE_UNIFORM_MAX_LENGTH] initial_World).
Proof.
  apply (proj1 (initUniforms_without_uniforms
                  (Scripted.driver talkative_compiler)
                  {| program := 1; uniforms := ∅ |} initial_World)).
  - by vm_compute.
  - by vm_compute.
Defined.

(** X15.  The name buffer comes from [new GLchar[maxLength]] and is read
    right after the driver has been asked for the first name.  If the driver
    reports at least one active uniform and either a name bound of 0 or
    stores no characters for index 0, that read is of no cell or of an
    indeterminate one: the behaviour of [initUniforms] is undefined. *)
Theorem initUniforms_reads_unwritten_name (d : Driver) (s : Shared) (w : World) :
  1 <= uniform_count d s w ->
  0 <= name_bound d s w ->
  name_bound d s w = 0 \/ first_name_chars d s w = [] ->
  fst (initUniforms d s w) = Undefined.
Proof.
  unfold first_name_chars, uniform_count, name_bound.
  intros Hcount Hbound Hcase. unfold initUniforms, glGetProgramiv.
  erewrite bindM_Ok by reflexivity.
  erewrite bindM_Ok by reflexivity.
  unfold new_GLchar. rewrite decide_False by lia.
  erewrite bindM_Ok by reflexivity.
  destruct (Z.to_nat (on_glGetProgramiv d (gl_calls w) (program s)
                        GL_ACTIVE_UNIFORMS)) as [|n] eqn:Hn; [lia |].
  cbn [seq initUniforms_loop].
  unfold bindM at 1. unfold bindM at 1.
  unfold glGetActiveUniform, bindM at 1, ask. cbn [fst snd].
  change (Z.of_nat 0) with 0.
  destruct (on_glGetActiveUniform d _ (program s) 0 _) as [[size type] chars].
  cbn [snd] in Hcase.
  destruct Hcase as [Hzero | ->].
  - rewrite Hzero. cbn [Z.to_nat replicate].
    destruct chars as [|c chars]; [| done].
    rewrite store_nil. by cbv beta iota delta [bindM ret lift_buffer].
  - rewrite store_nil.
    cbv beta iota delta [bindM ret lift_buffer].
    by rewrite load_cstr_indeterminate.
Qed.

Lemma initUniforms_reads_unwritten_name_witness :
  fst (initUniforms no_room_driver {| program := 1; uniforms := ∅ |} initial_World)
  = Undefined.
Proof.
  apply initUniforms_reads_unwritten_name.
  - by vm_compute.
  - by vm_compute.
  - left. reflexivity.
Defined.

(** ** The identifiers of the stage objects *)

Section StageIds.

Variable d : Driver.

Lemma created_ids_app h ev1 ev2 :
  created_ids d h (ev1 ++ ev2)
  = created_ids d h ev1 ++ created_ids d (h ++ ev1) ev2.
Proof.
  revert h. induction ev1 as [|c ev1 IH]; intros h.
  - simpl. by rewrite app_nil_r.
  - cbn [app created_ids]. rewrite IH, <- app_assoc.
    by destruct c.
Qed.

Lemma created_ids_compile_calls h ev :
  forallb compile_call ev = true -> created_ids d h ev = [].
Proof.
  revert h. induction ev as [|c ev IH]; intros h Hall; [done |].
  simpl in Hall. apply andb_true_iff in Hall as [Hc Hall].
  cbn [created_ids]. rewrite IH by done. by destruct c.
Qed.

Lemma emits_compile_calls id codeStr : emits compile_call (compile d id codeStr).
Proof.
  unfold compile, glShaderSource, glCompileShader, glGetShaderiv,
    glGetShaderInfoLog, std_vector_GLchar.
  repeat (repeat emits_step; try case_decide).
Qed.

Lemma compile_stages_ids slots ids w ids' w' :
  compile_stages d slots ids w = (Ok ids', w') ->
  exists ev,
    w' = log_calls ev w /\ ids' = ids ++ created_ids d (gl_calls w) ev.
Proof.
  revert ids w. induction slots as [|[shaderType src] slots IH]; intros ids w.
  - intros [= <- <-]. exists []. by rewrite log_calls_nil, app_nil_r.
  - destruct (decide (src = ""%string)) as [->|Hsrc].
    + rewrite compile_stages_skip. apply IH.
    + rewrite compile_stages_cons by done. cbv zeta.
      set (shader := on_glCreateShader d (gl_calls w) shaderType).
      destruct (emits_compile_calls shader src
                  (log_call (CreateShader shaderType) w))
        as (ev1 & Hev1 & Hcalls1).
      unfold bindM.
      destruct (compile d shader src _) as [[[]| e |] w1]; [| done..].
      simpl in Hev1. subst w1. intros Hrest.
      destruct (IH _ _ Hrest) as (ev2 & -> & ->).
      exists (CreateShader shaderType :: ev1 ++ ev2). split.
      * by rewrite log_call_log_calls, !log_calls_log_calls.
      * cbn [created_ids]. fold shader.
        rewrite created_ids_app, (created_ids_compile_calls _ _ Hcalls1).
        simpl. by rewrite <- !app_assoc.
Qed.

End StageIds.

(** X16.  The identifiers the stage loop hands on, which are the ones the
    constructor then attaches, detaches and deletes, are exactly the answers
    of the driver to the loop's [glCreateShader] calls, in the order of the
    calls. *)
Theorem stage_ids_are_the_created_ones
    (d : Driver) (source : ShaderProgram) (w : World)
    (ids : list GLuint) (w0 : World) :
  compile_stages d (zip shaderTypes (sources source)) []
                 (log_call CreateProgram w) = (Ok ids, w0) ->
  ids = created_ids d (gl_calls (log_call CreateProgram w))
                    (new_calls (log_call CreateProgram w) w0).
Proof.
  intros Hloop. destruct (compile_stages_ids d _ _ _ _ _ Hloop) as (ev & -> & ->).
  by rewrite new_calls_log_calls.
Qed.

Lemma stage_ids_are_the_created_ones_witness :
  [2]
  = created_ids (Scripted.driver all_good)
      (gl_calls (log_call CreateProgram initial_World))
      (new_calls (log_call CreateProgram initial_World)
         (snd (compile_stages (Scripted.driver all_good)
                 (zip shaderTypes (sources vertex_only)) []
                 (log_call CreateProgram initial_World)))).
Proof.
  apply (stage_ids_are_the_created_ones (Scripted.driver all_good) vertex_only
           initial_World).
  reflexivity.
Defined.
